(** * bt-mqtt scanner: a shallow embedding of the ingestion pipeline

    The development follows the Python package [scanner]:

    - [deduplicator.py]   -> Module [Dedup]      (recency table)
    - [ble_scanner.py]    -> Module [BLE]        (normaliser and scan loop)
    - [mqtt_publisher.py] -> Module [MQTT]       (publisher and counters)
    - [app.py]            -> Module [App]        (orchestrator, heartbeat)
    - [config.py]         -> Modules [App], [Cfg] (dataclasses, substitution)

    Conventions.  Wall-clock readings ([time.time()]) are passed to the
    functions that read the clock as an explicit argument [now], a rational
    number of seconds (every float is one).  Module [Dedup] subtracts them
    exactly; Module [Dedup64] and the publisher subtract them as the
    interpreter does, rounding the difference to the nearest binary64 value
    (Module [Float64]).  A Python [dict] keyed by
    strings is a [gmap string _], a Python [set] of strings a [gset string].
    Calls into the transport (paho) and the radio backend (bleak) are answered
    by explicit environment responses. *)

From Stdlib Require Import QArith Qround Qabs Lqa Ascii HexadecimalString.
From Stdlib Require HexadecimalN.
From stdpp Require Import gmap strings list fin_maps.

Set Default Proof Using "Type".
Set Warnings "-register-all".

(* ===================================================================== *)
(** * deduplicator.py                                                     *)
(* ===================================================================== *)

Module Dedup.

(** [class Deduplicator]: the two attributes set by [__init__]. *)
Record Deduplicator := mkDeduplicator {
  interval_seconds : Z;
  _last_seen : gmap string Q
}.

(** [Deduplicator(interval_seconds)] *)
Definition init (interval : Z) : Deduplicator :=
  {| interval_seconds := interval; _last_seen := ∅ |}.

(** [elapsed >= self.interval_seconds] *)
Definition ge_interval (elapsed : Q) (interval : Z) : bool :=
  Qle_bool (inject_Z interval) elapsed.

(** [now - last_seen > max_age_seconds], the difference taken exactly
    (Module [Dedup64] has it as the float the interpreter computes). *)
Definition older_than (now last_seen : Q) (max_age : Z) : bool :=
  negb (Qle_bool (now - last_seen) (inject_Z max_age)).

(** [should_publish(self, device_address)], with [now = time.time()] and
    [elapsed] taken exactly (Module [Dedup64] has it as the float the
    interpreter computes). *)
Definition should_publish (self : Deduplicator) (now : Q)
    (device_address : string) : bool * Deduplicator :=
  match _last_seen self !! device_address with
  | None =>
      (true, {| interval_seconds := interval_seconds self;
                _last_seen := <[device_address := now]> (_last_seen self) |})
  | Some last_seen =>
      let elapsed := (now - last_seen)%Q in
      if ge_interval elapsed (interval_seconds self)
      then (true, {| interval_seconds := interval_seconds self;
                     _last_seen := <[device_address := now]> (_last_seen self) |})
      else (false, self)
  end.

(** [get_stats(self)["unique_devices_seen"]] *)
Definition get_stats (self : Deduplicator) : nat := size (_last_seen self).

(** The list comprehension of [clear_old_entries]. *)
Definition old_keys (self : Deduplicator) (now : Q) (max_age_seconds : Z)
    : list string :=
  (filter (λ kv : string * Q, older_than now kv.2 max_age_seconds = true)
          (map_to_list (_last_seen self))).*1.

(** [clear_old_entries(self, max_age_seconds)], with [now = time.time()]:
    the [for key in old_keys: del self._last_seen[key]] loop, then
    [len(old_keys)]. *)
Definition clear_old_entries (self : Deduplicator) (now : Q)
    (max_age_seconds : Z) : nat * Deduplicator :=
  let ks := old_keys self now max_age_seconds in
  (length ks,
   {| interval_seconds := interval_seconds self;
      _last_seen := foldl (λ m key, delete key m) (_last_seen self) ks |}).

(** A sequence of [should_publish] calls, each with its clock reading;
    the results are returned in call order. *)
Fixpoint run_calls (self : Deduplicator) (calls : list (Q * string))
    : list bool * Deduplicator :=
  match calls with
  | [] => ([], self)
  | (now, a) :: rest =>
      let '(b, self1) := should_publish self now a in
      let '(bs, self2) := run_calls self1 rest in
      (b :: bs, self2)
  end.

(** The clock reading of the last call for [a] that returned [True],
    read off a call history and its results. *)
Fixpoint last_published (a : string) (calls : list (Q * string))
    (results : list bool) : option Q :=
  match calls, results with
  | (now, a') :: calls', b :: results' =>
      match last_published a calls' results' with
      | Some t => Some t
      | None => if b && bool_decide (a' = a) then Some now else None
      end
  | _, _ => None
  end.

(** The calls of a history that are made for [a]. *)
Definition calls_for (a : string) (calls : list (Q * string))
    : list (Q * string) :=
  filter (λ c : Q * string, c.2 = a) calls.

(** The results, in call order, of the calls of a history made for [a]. *)
Fixpoint results_for (a : string) (calls : list (Q * string))
    (results : list bool) : list bool :=
  match calls, results with
  | (_, a') :: calls', b :: results' =>
      if bool_decide (a' = a) then b :: results_for a calls' results'
      else results_for a calls' results'
  | _, _ => []
  end.

(** A sweep leaves behind either the same entry or none where the entry was
    older than [max_age]. *)
Definition swept_view (now : Q) (max_age : Z) (d1 d2 : Deduplicator) : Prop :=
  interval_seconds d1 = interval_seconds d2
  ∧ ∀ a : string,
      _last_seen d1 !! a = _last_seen d2 !! a
      ∨ (_last_seen d1 !! a = None
         ∧ ∃ t : Q, _last_seen d2 !! a = Some t
                    ∧ (inject_Z max_age < now - t)%Q).

End Dedup.

(* ===================================================================== *)
(** * Float subtraction, as the interpreter computes it                   *)
(* ===================================================================== *)

Module Float64.

(** [2 ** e] *)
Definition pow2 (e : Z) : Q := Qpower 2 e.

(** For [a > 0], the [k] with [2 ** k <= a < 2 ** (k + 1)]. *)
Definition floor_log2 (a : Q) : Z :=
  let k := (Z.log2 (Qnum a) - Z.log2 (Z.pos (Qden a)))%Z in
  if Qle_bool (pow2 k) a then k else (k - 1)%Z.

(** The nearest integer, a tie going to the even one. *)
Definition round_half_even (x : Q) : Z :=
  let f := Qfloor x in
  match Qcompare (x - inject_Z f) (1 # 2) with
  | Lt => f
  | Gt => (f + 1)%Z
  | Eq => if Z.even f then f else (f + 1)%Z
  end.

(** The binary64 value nearest to [x] (53-bit significand, ties to even,
    gradual underflow below [2 ** -1022]).  Overflow to infinity is not
    represented: differences of clock readings are far from it. *)
Definition round (x : Q) : Q :=
  match Qnum x with
  | 0%Z => 0%Q
  | _ =>
      let a := Qabs x in
      let e := Z.max (floor_log2 a - 52) (-1074) in
      let y := Qred (inject_Z (round_half_even (a / pow2 e)) * pow2 e) in
      if Qle_bool 0 x then y else (- y)%Q
  end.

(** [x - y] on two floats. *)
Definition sub (x y : Q) : Q := round (x - y).

End Float64.

(* ===================================================================== *)
(** * deduplicator.py, with the differences the interpreter computes      *)
(* ===================================================================== *)

Module Dedup64.

(** [should_publish(self, device_address)], with [now = time.time()];
    [elapsed = now - last_seen] is a float subtraction. *)
Definition should_publish (self : Dedup.Deduplicator) (now : Q)
    (device_address : string) : bool * Dedup.Deduplicator :=
  match Dedup._last_seen self !! device_address with
  | None =>
      (true, {| Dedup.interval_seconds := Dedup.interval_seconds self;
                Dedup._last_seen :=
                  <[device_address := now]> (Dedup._last_seen self) |})
  | Some last_seen =>
      let elapsed := Float64.sub now last_seen in
      if Dedup.ge_interval elapsed (Dedup.interval_seconds self)
      then (true, {| Dedup.interval_seconds := Dedup.interval_seconds self;
                     Dedup._last_seen :=
                       <[device_address := now]> (Dedup._last_seen self) |})
      else (false, self)
  end.

(** [now - last_seen > max_age_seconds], the difference being a float. *)
Definition older_than (now last_seen : Q) (max_age : Z) : bool :=
  negb (Qle_bool (Float64.sub now last_seen) (inject_Z max_age)).

(** The list comprehension of [clear_old_entries]. *)
Definition old_keys (self : Dedup.Deduplicator) (now : Q) (max_age_seconds : Z)
    : list string :=
  (filter (λ kv : string * Q, older_than now kv.2 max_age_seconds = true)
          (map_to_list (Dedup._last_seen self))).*1.

(** [clear_old_entries(self, max_age_seconds)], with [now = time.time()]. *)
Definition clear_old_entries (self : Dedup.Deduplicator) (now : Q)
    (max_age_seconds : Z) : nat * Dedup.Deduplicator :=
  let ks := old_keys self now max_age_seconds in
  (length ks,
   {| Dedup.interval_seconds := Dedup.interval_seconds self;
      Dedup._last_seen :=
        foldl (λ m key, delete key m) (Dedup._last_seen self) ks |}).

(** A sequence of [should_publish] calls, each with its clock reading;
    the results are returned in call order. *)
Fixpoint run_calls (self : Dedup.Deduplicator) (calls : list (Q * string))
    : list bool * Dedup.Deduplicator :=
  match calls with
  | [] => ([], self)
  | (now, a) :: rest =>
      let '(b, self1) := should_publish self now a in
      let '(bs, self2) := run_calls self1 rest in
      (b :: bs, self2)
  end.

End Dedup64.

(* ===================================================================== *)
(** * ble_scanner.py                                                      *)
(* ===================================================================== *)

Module BLE.

(** ** Text helpers used by the normaliser *)

(** The base64 alphabet of [base64.b64encode]. *)
Definition b64_alphabet : string :=
  "ABCDEFGHIJKLMNOPQRSTUVWXYZabcdefghijklmnopqrstuvwxyz0123456789+/".

Definition b64_char (sextet : N) : ascii :=
  match String.get (N.to_nat (N.land sextet 63)) b64_alphabet with
  | Some c => c
  | None => "="%char
  end.

(** [base64.b64encode(bs).decode()]: three bytes become four characters,
    a final group of one or two bytes is padded with [=]. *)
Fixpoint b64encode (bs : list Byte.byte) : string :=
  match bs with
  | [] => ""
  | [a] =>
      let n := N.shiftl (Byte.to_N a) 16 in
      String (b64_char (N.shiftr n 18))
        (String (b64_char (N.shiftr n 12)) "==")
  | [a; b] =>
      let n := N.lor (N.shiftl (Byte.to_N a) 16) (N.shiftl (Byte.to_N b) 8) in
      String (b64_char (N.shiftr n 18))
        (String (b64_char (N.shiftr n 12))
           (String (b64_char (N.shiftr n 6)) "="))
  | a :: b :: c :: rest =>
      let n := N.lor (N.lor (N.shiftl (Byte.to_N a) 16)
                            (N.shiftl (Byte.to_N b) 8)) (Byte.to_N c) in
      String (b64_char (N.shiftr n 18))
        (String (b64_char (N.shiftr n 12))
           (String (b64_char (N.shiftr n 6))
              (String (b64_char n) (b64encode rest))))
  end.

(** Left padding with ["0"] up to [width] characters. *)
Definition zero_pad (width : nat) (s : string) : string :=
  String.concat "" (replicate (width - String.length s) "0") +:+ s.

(** The f-string [f"0x{company_id:04x}"] for a non-negative identifier. *)
Definition format_company_id (company_id : N) : string :=
  "0x" +:+ zero_pad 4 (HexadecimalString.NilZero.string_of_uint
                         (N.to_hex_uint company_id)).

(** [str.upper()], exact on ASCII text, which hardware addresses are.  On
    other text Python also maps non-ASCII letters (and may change the
    length); here every character that is not an ASCII lower-case letter is
    kept, so on such text only what is said of the ASCII letters carries
    over. *)
Definition upper_char (c : ascii) : ascii :=
  let n := Ascii.N_of_ascii c in
  if (97 <=? n)%N && (n <=? 122)%N then Ascii.ascii_of_N (n - 32) else c.

Fixpoint upper (s : string) : string :=
  match s with
  | EmptyString => EmptyString
  | String c s' => String (upper_char c) (upper s')
  end.

(** [needle in haystack] for strings. *)
Fixpoint contains (needle haystack : string) : bool :=
  String.prefix needle haystack ||
  match haystack with
  | EmptyString => false
  | String _ rest => contains needle rest
  end.

(** ** Data *)

(** [@dataclass class Advertisement] *)
Record Advertisement := mkAdvertisement {
  version : string;
  timestamp : string;
  scanner_id : string;
  device_address : string;
  device_address_type : string;
  device_name : option string;
  rssi : Z;
  manufacturer_data : gmap string string;
  service_data : gmap string string;
  service_uuids : list string;
  raw_data : string
}.

(** What the handler reads of bleak's [BLEDevice]. *)
Record BLEDevice := mkBLEDevice { address : string }.

(** What the handler reads of bleak's [AdvertisementData]. *)
Record AdvertisementData := mkAdvertisementData {
  adv_local_name : option string;
  adv_rssi : Z;
  adv_manufacturer_data : gmap N (list Byte.byte);
  adv_service_data : gmap string (list Byte.byte);
  adv_service_uuids : list string
}.

(** ** The detection handler *)

(** The body of [BLEScanner._handle_advertisement] up to the construction
    of the [Advertisement]; [now_iso] is
    [datetime.now(timezone.utc).isoformat()]. *)
Definition make_advertisement (self_scanner_id : string) (now_iso : string)
    (device : BLEDevice) (advertisement_data : AdvertisementData)
    : Advertisement :=
  let manufacturer_data : gmap string string :=
    list_to_map
      ((λ kv : N * list Byte.byte, (format_company_id kv.1, b64encode kv.2))
         <$> map_to_list (adv_manufacturer_data advertisement_data)) in
  let service_data : gmap string string :=
    b64encode <$> adv_service_data advertisement_data in
  let service_uuids := adv_service_uuids advertisement_data in
  let raw_data := b64encode [] in
  {| version := "1.0";
     timestamp := now_iso;
     scanner_id := self_scanner_id;
     device_address := upper (address device);
     device_address_type := "public";
     device_name := adv_local_name advertisement_data;
     rssi := adv_rssi advertisement_data;
     manufacturer_data := manufacturer_data;
     service_data := service_data;
     service_uuids := service_uuids;
     raw_data := raw_data |}.

(** [BLEScanner._handle_advertisement]: build the record, then
    [if self.callback: self.callback(advertisement)].  The callback acts on
    the state [S] of whoever registered it. *)
Definition _handle_advertisement {S : Type} (self_scanner_id : string)
    (callback : option (Advertisement → S → S)) (now_iso : string)
    (device : BLEDevice) (advertisement_data : AdvertisementData)
    (s : S) : S :=
  let advertisement :=
    make_advertisement self_scanner_id now_iso device advertisement_data in
  match callback with
  | Some cb => cb advertisement s
  | None => s
  end.

(** ** The scan loop: [BLEScanner._scan_loop]

    The coroutine is a machine that rests only at its [await]s.  One step
    resumes it with the environment's answer to the pending [await] and
    runs it to the next one. *)

(** [max_retries = 10] *)
Definition max_retries : nat := 10.

(** What an awaited call can resume with. *)
Inductive exn :=
| TimeoutError                 (* [asyncio.TimeoutError], [str(e) = ""] *)
| Exception (msg : string).    (* any other [Exception], [str(e) = msg] *)

Inductive response :=
| Returned
| Raised (e : exn)
| Cancelled.                   (* [asyncio.CancelledError] *)

(** One resumption.  [stop_requested] says that [self._running] was set to
    [False] from outside (by [stop()]) while the coroutine was suspended. *)
Record input := mkInput { stop_requested : bool; result : response }.

(** The pending [await], or how the coroutine ended. *)
Inductive pc :=
| AwaitStart    (* [await self._scanner.start()] *)
| AwaitPoll     (* [await asyncio.wait_for(stop_event.wait(), timeout=5.0)] *)
| AwaitStop     (* [await self._scanner.stop()] *)
| AwaitSleep    (* [await asyncio.sleep(wait_time)] *)
| Spinning      (* [while self._running] with [self._scanner] unset: no await *)
| Exited.       (* the coroutine has returned or was torn down *)

Record ScanState := mkScanState {
  _running : bool;
  has_scanner : bool;     (* [self._scanner] is set *)
  retry_count : nat;
  at_pc : pc
}.

(** The three branches of the error report. *)
Inductive error_class := AdapterNotReady | PermissionDenied | OtherError.

Inductive event :=
| EvStartAttempt (attempt : nat)   (* debug line, then [self._scanner.start()] *)
| EvScannerStop                    (* [self._scanner.stop()] is called *)
| EvError (c : error_class) (attempt : nat)   (* [logger.error] *)
| EvGiveUp                         (* [logger.critical(... Giving up.)] *)
| EvSleep (wait_time : nat).       (* [asyncio.sleep(wait_time)] is called *)

Definition str (e : exn) : string :=
  match e with TimeoutError => "" | Exception msg => msg end.

Definition classify (error_msg : string) : error_class :=
  if contains "Resource Not Ready" error_msg then AdapterNotReady
  else if contains "Permission denied" error_msg then PermissionDenied
  else OtherError.

Definition set_pc (st : ScanState) (p : pc) : ScanState :=
  {| _running := _running st; has_scanner := has_scanner st;
     retry_count := retry_count st; at_pc := p |}.

(** Top of [while self._running:] down to [await self._scanner.start()]. *)
Definition loop_head (st : ScanState) : list event * ScanState :=
  if _running st then
    if has_scanner st
    then ([EvStartAttempt (retry_count st + 1)], set_pc st AwaitStart)
    else ([], set_pc st Spinning)
  else ([], set_pc st Exited).

(** Top of the inner [while self._running:]; when it is left,
    [await self._scanner.stop()] follows. *)
Definition poll_head (st : ScanState) : list event * ScanState :=
  if _running st then ([], set_pc st AwaitPoll)
  else ([EvScannerStop], set_pc st AwaitStop).

(** The [except Exception as e:] block. *)
Definition on_exception (e : exn) (st : ScanState) : list event * ScanState :=
  let retry_count' := retry_count st + 1 in
  let error_msg := str e in
  let log := EvError (classify error_msg) retry_count' in
  if max_retries <=? retry_count' then
    ([log; EvGiveUp],
     {| _running := false; has_scanner := has_scanner st;
        retry_count := retry_count'; at_pc := Exited |})
  else
    let st' := {| _running := _running st; has_scanner := has_scanner st;
                  retry_count := retry_count'; at_pc := at_pc st |} in
    if _running st then
      let wait_time := Nat.min (5 * retry_count') 30 in
      ([log; EvSleep wait_time], set_pc st' AwaitSleep)
    else
      let '(evs, st'') := loop_head st' in (log :: evs, st'').

(** Resume the coroutine once. *)
Definition step (st : ScanState) (i : input) : list event * ScanState :=
  let st := if stop_requested i
            then {| _running := false; has_scanner := has_scanner st;
                    retry_count := retry_count st; at_pc := at_pc st |}
            else st in
  match at_pc st, result i with
  | (Spinning | Exited), _ => ([], st)
  | _, Cancelled => ([], set_pc st Exited)             (* [break] *)
  | AwaitStart, Returned =>
      poll_head {| _running := _running st; has_scanner := has_scanner st;
                   retry_count := 0; at_pc := at_pc st |}
  | AwaitStart, Raised e => on_exception e st
  | AwaitPoll, Returned => ([EvScannerStop], set_pc st AwaitStop)  (* [break] *)
  | AwaitPoll, Raised TimeoutError => poll_head st     (* [continue] *)
  | AwaitPoll, Raised e => on_exception e st
  | AwaitStop, Returned => loop_head st
  | AwaitStop, Raised e => on_exception e st
  | AwaitSleep, Returned => loop_head st
  | AwaitSleep, Raised _ => ([], set_pc st Exited)     (* escapes the handler *)
  end.

(** Resume the coroutine once per input, collecting the events. *)
Fixpoint run (st : ScanState) (ins : list input) : list event * ScanState :=
  match ins with
  | [] => ([], st)
  | i :: rest =>
      let '(evs, st1) := step st i in
      let '(evs', st2) := run st1 rest in
      (evs ++ evs', st2)
  end.

(** [start()] on a fresh scanner: [self._scanner] is created,
    [self._running = True], and the task runs [_scan_loop] with
    [retry_count = 0] up to its first [await]. *)
Definition start : list event * ScanState :=
  loop_head {| _running := true; has_scanner := true;
               retry_count := 0; at_pc := Exited |}.

(** The whole life of the task: [start()], then the resumptions. *)
Definition scan_task (ins : list input) : list event * ScanState :=
  let '(evs, st) := start in
  let '(evs', st') := run st ins in
  (evs ++ evs', st').

(** An [await] that completes while nobody asked to stop. *)
Definition resume (r : response) : input :=
  {| stop_requested := false; result := r |}.

(** [n] consecutive failing start attempts, the back-off sleep after each
    one running to completion. *)
Definition failed_attempts (es : list exn) : list input :=
  es ≫= λ e, [resume (Raised e); resume Returned].

Definition is_start_attempt (ev : event) : bool :=
  match ev with EvStartAttempt _ => true | _ => false end.

Fixpoint start_attempts (evs : list event) : nat :=
  match evs with
  | [] => 0
  | ev :: rest => (if is_start_attempt ev then 1 else 0) + start_attempts rest
  end.

Definition sleeps (evs : list event) : list nat :=
  evs ≫= λ ev, match ev with EvSleep w => [w] | _ => [] end.

(** The back-off after the [k]-th consecutive failure. *)
Definition backoff (k : nat) : nat := Nat.min (5 * k) 30.

(** The expected trace of a run of failing start attempts that begins with
    [c] failures already counted: error report, back-off sleep, next
    attempt. *)
Fixpoint failure_events (c : nat) (es : list exn) : list event :=
  match es with
  | [] => []
  | e :: es' =>
      [EvError (classify (str e)) (c + 1); EvSleep (backoff (c + 1));
       EvStartAttempt (c + 2)] ++ failure_events (c + 1) es'
  end.

(** ** Reading the normaliser's output back *)

(** The company identifier written as [0x] and hexadecimal digits. *)
Definition parse_company_id (key : string) : option N :=
  match key with
  | String "0" (String "x" digits) =>
      N.of_hex_uint <$> HexadecimalString.NilEmpty.uint_of_string digits
  | _ => None
  end.

(** The characters base64 text is made of. *)
Definition is_b64_text_char (c : ascii) : bool :=
  bool_decide (c ∈ String.list_ascii_of_string b64_alphabet)
  || bool_decide (c = "="%char).

Fixpoint string_forallb (f : ascii → bool) (s : string) : bool :=
  match s with
  | EmptyString => true
  | String c s' => f c && string_forallb f s'
  end.

(** An ASCII lower-case letter. *)
Definition is_lower (c : ascii) : bool :=
  let n := Ascii.N_of_ascii c in (97 <=? n)%N && (n <=? 122)%N.

Fixpoint has_lower (s : string) : bool :=
  match s with
  | EmptyString => false
  | String c s' => is_lower c || has_lower s'
  end.

(** [str.isascii()]: every character is below 128. *)
Definition is_ascii (s : string) : bool :=
  string_forallb (λ c, (Ascii.N_of_ascii c <? 128)%N) s.

(** ** [BLEScanner.start] and [BLEScanner.stop] around the scan task *)

(** [self._scan_task]: unset; created by [start()] and waiting for its first
    turn; suspended at an [await] of [_scan_loop]; ended by a return or a
    cancellation; ended by an exception that escaped [_scan_loop]. *)
Inductive task_state :=
| NoTask
| Scheduled
| Running
| Ended
| Failed (e : exn).

(** The scanner object with its task.  [retry_count] and [at_pc] belong to
    the coroutine of the current task and mean nothing before its first
    turn. *)
Record Scanner := mkScanner { loop : ScanState; task : task_state }.

(** [__init__] *)
Definition scanner_init : Scanner :=
  {| loop := {| _running := false; has_scanner := false;
                retry_count := 0; at_pc := Exited |};
     task := NoTask |}.

Definition is_exited (p : pc) : bool :=
  match p with Exited => true | _ => false end.

Definition is_await (p : pc) : bool :=
  match p with
  | AwaitStart | AwaitPoll | AwaitStop | AwaitSleep => true
  | Spinning | Exited => false
  end.

Definition set_running (st : ScanState) (b : bool) : ScanState :=
  {| _running := b; has_scanner := has_scanner st;
     retry_count := retry_count st; at_pc := at_pc st |}.

(** [start(self)]: a warning and nothing else while [_running]; otherwise the
    backend scanner is constructed ([ctor] is the exception of a failing
    constructor, logged and re-raised with nothing changed), [_running] is
    set and the task is created.  The task does not run yet: no start
    attempt is made inside [start()]. *)
Definition scanner_start (s : Scanner) (ctor : option exn)
    : Scanner * option exn :=
  if _running (loop s) then (s, None)
  else
    match ctor with
    | Some e => (s, Some e)
    | None =>
        ({| loop := {| _running := true; has_scanner := true;
                       retry_count := retry_count (loop s);
                       at_pc := at_pc (loop s) |};
            task := Scheduled |}, None)
    end.

(** The first turn of a created task: [_scan_loop] from its first line, with
    [retry_count = 0], to its first [await]. *)
Definition scanner_turn (s : Scanner) : list event * Scanner :=
  match task s with
  | Scheduled =>
      let '(evs, st) :=
        loop_head {| _running := _running (loop s);
                     has_scanner := has_scanner (loop s);
                     retry_count := 0; at_pc := Exited |} in
      (evs, {| loop := st;
               task := if is_exited (at_pc st) then Ended else Running |})
  | _ => ([], s)
  end.

(** The pending [await] of a suspended task completes with [r].  An exception
    raised by the back-off sleep is raised inside the [except] block and
    ends the task with that exception. *)
Definition scanner_resume (s : Scanner) (r : response)
    : list event * Scanner :=
  match task s with
  | Running =>
      let '(evs, st) :=
        step (loop s) {| stop_requested := false; result := r |} in
      (evs, {| loop := st;
               task := match at_pc (loop s), r with
                       | AwaitSleep, Raised e => Failed e
                       | _, _ => if is_exited (at_pc st) then Ended
                                 else Running
                       end |})
  | _ => ([], s)
  end.

(** [self._scan_task.cancel()] and [await self._scan_task], with [_running]
    already cleared: what the task still does, the state it is left in, and
    the exception the [await] lets through.  A task that has not had its
    first turn is cancelled without running; a suspended one is resumed with
    the cancellation; one that has ended is left as it is, and the [await]
    re-raises the exception it ended with, which [except
    asyncio.CancelledError] does not catch. *)
Definition cancel_and_await (s : Scanner)
    : list event * Scanner * option exn :=
  match task s with
  | NoTask => ([], s, None)
  | Scheduled => ([], {| loop := set_pc (loop s) Exited; task := Ended |}, None)
  | Running =>
      let '(evs, st) :=
        step (loop s) {| stop_requested := false; result := Cancelled |} in
      (evs, {| loop := st; task := Ended |}, None)
  | Ended => ([], s, None)
  | Failed e => ([], s, Some e)
  end.

(** How [stop] ended: normally, normally after logging the backend's failure
    to stop, torn down while waiting for the backend, or with the exception
    of the scan task, the backend not having been asked to stop. *)
Inductive stop_result :=
| Stopped
| StoppedWithWarning (msg : string)
| StopInterrupted
| StopRaised (e : exn).

(** [stop(self)]: nothing unless [_running]; otherwise [_running] is cleared,
    the task is cancelled and awaited, and the backend scanner, if there is
    one, is asked to stop; [resp] is the answer to that request, an exception
    being logged and swallowed. *)
Definition scanner_stop (s : Scanner) (resp : response)
    : list event * Scanner * stop_result :=
  if negb (_running (loop s)) then ([], s, Stopped)
  else
    let '(evs, s1, raised) :=
      cancel_and_await {| loop := set_running (loop s) false;
                          task := task s |} in
    match raised with
    | Some e => (evs, s1, StopRaised e)
    | None =>
        if has_scanner (loop s1) then
          (evs ++ [EvScannerStop], s1,
           match resp with
           | Returned => Stopped
           | Raised e => StoppedWithWarning (str e)
           | Cancelled => StopInterrupted
           end)
        else (evs, s1, Stopped)
    end.

(** What can happen to a scanner, in any order. *)
Inductive scanner_op :=
| OpStart (ctor : option exn)
| OpTurn
| OpResume (r : response)
| OpStop (resp : response).

Definition scanner_apply (s : Scanner) (o : scanner_op)
    : list event * Scanner :=
  match o with
  | OpStart ctor => ([], (scanner_start s ctor).1)
  | OpTurn => scanner_turn s
  | OpResume r => scanner_resume s r
  | OpStop resp => (scanner_stop s resp).1
  end.

Fixpoint scanner_run (s : Scanner) (ops : list scanner_op)
    : list event * Scanner :=
  match ops with
  | [] => ([], s)
  | o :: rest =>
      let '(evs, s1) := scanner_apply s o in
      let '(evs', s2) := scanner_run s1 rest in
      (evs ++ evs', s2)
  end.

(** What holds of a scanner after any history: a task exists exactly from
    the first successful [start()] on, a backend scanner with it; a task
    waiting for its first turn or suspended belongs to a running scanner;
    and the coroutine is suspended at an [await] or has ended. *)
Definition scanner_ok (s : Scanner) : bool :=
  match task s with
  | NoTask =>
      negb (_running (loop s)) && is_exited (at_pc (loop s))
  | Scheduled =>
      _running (loop s) && has_scanner (loop s) && is_exited (at_pc (loop s))
  | Running =>
      _running (loop s) && has_scanner (loop s) && is_await (at_pc (loop s))
  | Ended | Failed _ =>
      has_scanner (loop s) && is_exited (at_pc (loop s))
  end.

Definition scanner_stops (evs : list event) : nat :=
  length (evs ≫= λ ev, match ev with EvScannerStop => [()] | _ => [] end).

Definition attempt_numbers (evs : list event) : list nat :=
  evs ≫= λ ev, match ev with EvStartAttempt n => [n] | _ => [] end.

(** What holds of the scan task at every rest: the failure counter is below
    the cap, or the task has given up at exactly the cap. *)
Definition below_cap (st : ScanState) : Prop :=
  has_scanner st = true
  ∧ at_pc st ≠ Spinning
  ∧ (retry_count st < max_retries
     ∨ (retry_count st = max_retries ∧ at_pc st = Exited ∧ _running st = false)).

(** The scanner at rest in its scanning phase, after a first start that
    succeeded. *)
Definition scanning : ScanState :=
  {| _running := true; has_scanner := true; retry_count := 0;
     at_pc := AwaitPoll |}.

(** The liveness poll timing out, nobody having asked to stop. *)
Definition poll_timeout : input := resume (Raised TimeoutError).

(** Every sleep is between 5 and 30 seconds, every attempt number between 1
    and the cap. *)
Definition step_events_bounded (evs : list event) : Prop :=
  Forall (λ w, 5 ≤ w ≤ 30) (sleeps evs)
  ∧ Forall (λ n, 1 ≤ n ≤ max_retries) (attempt_numbers evs).

End BLE.

(* ===================================================================== *)
(** * mqtt_publisher.py                                                   *)
(* ===================================================================== *)

Module MQTT.

(** A call either returns a value or raises. *)
Inductive completion (A : Type) :=
| Return (a : A)
| Raise (msg : string).
Arguments Return {A} a.
Arguments Raise {A} msg.

(** [try: body except Exception as e: handler(e)] *)
Definition try_except {A S : Type} (body : completion A * S)
    (handler : string → S → completion A * S) : completion A * S :=
  match body with
  | (Return a, s) => (Return a, s)
  | (Raise msg, s) => handler msg s
  end.

(** [mqtt.MQTT_ERR_SUCCESS] *)
Definition MQTT_ERR_SUCCESS : Z := 0.

(** The payload handed to [json.dumps]: the shape of the dictionary, kept
    as a tree. *)
Inductive json :=
| JNull
| JBool (b : bool)
| JInt (n : Z)
| JStr (s : string)
| JList (l : list json)
| JDict (fields : list (string * json)).

Definition str_dict (m : gmap string string) : json :=
  JDict (prod_map id JStr <$> map_to_list m).

(** [Advertisement.to_dict] *)
Definition to_dict (self : BLE.Advertisement) : json :=
  let device :=
    [("address", JStr (BLE.device_address self));
     ("address_type", JStr (BLE.device_address_type self));
     ("rssi", JInt (BLE.rssi self))]
    ++ match BLE.device_name self with
       | Some name => if decide (name = "") then [] else [("name", JStr name)]
       | None => []
       end in
  JDict (
    [("version", JStr (BLE.version self));
     ("timestamp", JStr (BLE.timestamp self));
     ("scanner_id", JStr (BLE.scanner_id self));
     ("device", JDict device)]
    ++ (if decide (BLE.manufacturer_data self = ∅) then []
        else [("manufacturer_data", str_dict (BLE.manufacturer_data self))])
    ++ (if decide (BLE.service_data self = ∅) then []
        else [("service_data", str_dict (BLE.service_data self))])
    ++ (if decide (BLE.service_uuids self = []) then []
        else [("service_uuids", JList (JStr <$> BLE.service_uuids self))])
    ++ [("raw_data", JStr (BLE.raw_data self))]).

(** One call of [self._client.publish(topic, payload, qos=..., retain=...)]. *)
Record message := mkMessage {
  msg_topic : string;
  msg_payload : json;
  msg_qos : Z;
  msg_retain : bool
}.

(** The transport's answer to one [publish]: a result whose [rc] is given,
    or an exception. *)
Inductive send_response :=
| SendRc (rc : Z)
| SendRaises (msg : string).

(** [class MQTTPublisher]: the attributes the publish path and the
    connection handlers read or write; [_client_calls] records the calls
    made on [self._client.publish], newest first. *)
Record MQTTPublisher := mkMQTTPublisher {
  scanner_id : string;
  topic_prefix : string;
  qos : Z;
  _connected : bool;
  _connect_time : option Q;
  _messages_sent : nat;
  _messages_failed : nat;
  _client_calls : list message
}.

(** [MQTTPublisher(...)] as [__init__] leaves it. *)
Definition init (scanner_id topic_prefix : string) (qos : Z) : MQTTPublisher :=
  {| scanner_id := scanner_id; topic_prefix := topic_prefix; qos := qos;
     _connected := false; _connect_time := None;
     _messages_sent := 0; _messages_failed := 0; _client_calls := [] |}.

Definition set_connected (self : MQTTPublisher) (b : bool) : MQTTPublisher :=
  {| scanner_id := scanner_id self; topic_prefix := topic_prefix self;
     qos := qos self; _connected := b; _connect_time := _connect_time self;
     _messages_sent := _messages_sent self;
     _messages_failed := _messages_failed self;
     _client_calls := _client_calls self |}.

Definition set_connect_time (self : MQTTPublisher) (t : Q) : MQTTPublisher :=
  {| scanner_id := scanner_id self; topic_prefix := topic_prefix self;
     qos := qos self; _connected := _connected self; _connect_time := Some t;
     _messages_sent := _messages_sent self;
     _messages_failed := _messages_failed self;
     _client_calls := _client_calls self |}.

(** [self._messages_failed += 1] *)
Definition incr_failed (self : MQTTPublisher) : MQTTPublisher :=
  {| scanner_id := scanner_id self; topic_prefix := topic_prefix self;
     qos := qos self; _connected := _connected self;
     _connect_time := _connect_time self;
     _messages_sent := _messages_sent self;
     _messages_failed := _messages_failed self + 1;
     _client_calls := _client_calls self |}.

(** [self._messages_sent += 1] *)
Definition incr_sent (self : MQTTPublisher) : MQTTPublisher :=
  {| scanner_id := scanner_id self; topic_prefix := topic_prefix self;
     qos := qos self; _connected := _connected self;
     _connect_time := _connect_time self;
     _messages_sent := _messages_sent self + 1;
     _messages_failed := _messages_failed self;
     _client_calls := _client_calls self |}.

(** [self._client.publish(...)]: the call is recorded and answered. *)
Definition client_publish (self : MQTTPublisher) (m : message)
    (resp : send_response) : completion Z * MQTTPublisher :=
  let self' :=
    {| scanner_id := scanner_id self; topic_prefix := topic_prefix self;
       qos := qos self; _connected := _connected self;
       _connect_time := _connect_time self;
       _messages_sent := _messages_sent self;
       _messages_failed := _messages_failed self;
       _client_calls := m :: _client_calls self |} in
  match resp with
  | SendRc rc => (Return rc, self')
  | SendRaises msg => (Raise msg, self')
  end.

(** [disconnect(self)] *)
Definition disconnect (self : MQTTPublisher) : MQTTPublisher :=
  set_connected self false.

(** [publish_advertisement(self, advertisement)] *)
Definition publish_advertisement (self : MQTTPublisher)
    (advertisement : BLE.Advertisement) (resp : send_response)
    : completion bool * MQTTPublisher :=
  if negb (_connected self) then
    (Return false, incr_failed self)
  else
    try_except
      (let topic := topic_prefix self +:+ "/raw/" +:+ scanner_id self in
       let payload := to_dict advertisement in
       match client_publish self
               {| msg_topic := topic; msg_payload := payload;
                  msg_qos := qos self; msg_retain := false |} resp with
       | (Return rc, self') =>
           if decide (rc = MQTT_ERR_SUCCESS) then (Return true, self')
           else (Return false, incr_failed self')
       | (Raise msg, self') => (Raise msg, self')
       end)
      (λ _ self', (Return false, incr_failed self')).

(** [publish_status(self, status_data)]: [status_data] is the dictionary
    splatted after the two standard fields. *)
Definition publish_status (self : MQTTPublisher)
    (status_data : list (string * json)) (resp : send_response)
    : completion bool * MQTTPublisher :=
  if negb (_connected self) then
    (Return false, self)
  else
    try_except
      (let topic :=
         topic_prefix self +:+ "/scanner/" +:+ scanner_id self +:+ "/status" in
       let status :=
         JDict ([("version", JStr "1.0");
                 ("scanner_id", JStr (scanner_id self))] ++ status_data) in
       match client_publish self
               {| msg_topic := topic; msg_payload := status;
                  msg_qos := qos self; msg_retain := true |} resp with
       | (Return rc, self') =>
           if decide (rc = MQTT_ERR_SUCCESS) then (Return true, self')
           else (Return false, self')
       | (Raise msg, self') => (Raise msg, self')
       end)
      (λ _ self', (Return false, self')).

(** [int(x)] on a rational: truncation towards zero. *)
Definition int_of_Q (x : Q) : Z := Z.quot (Qnum x) (Z.pos (Qden x)).

(** The dictionary returned by [get_statistics]. *)
Record statistics := mkStatistics {
  stat_connected : bool;
  stat_uptime_seconds : Z;
  stat_messages_sent : nat;
  stat_messages_failed : nat
}.

(** [get_statistics(self)], with [now = time.time()];
    [if self._connect_time:] is false for [None] and for [0.0]; the
    difference is a float subtraction. *)
Definition get_statistics (self : MQTTPublisher) (now : Q) : statistics :=
  let uptime :=
    match _connect_time self with
    | Some t => if Qeq_bool t 0 then 0%Q else Float64.sub now t
    | None => 0%Q
    end in
  {| stat_connected := _connected self;
     stat_uptime_seconds := int_of_Q uptime;
     stat_messages_sent := _messages_sent self;
     stat_messages_failed := _messages_failed self |}.

(** [_on_connect(self, client, userdata, flags, rc)], with
    [now = time.time()]; the second component says whether
    [self.on_connect_callback] is to be invoked. *)
Definition _on_connect (self : MQTTPublisher) (now : Q) (rc : Z)
    : MQTTPublisher * bool :=
  if decide (rc = 0%Z)
  then (set_connect_time (set_connected self true) now, true)
  else (set_connected self false, false).

(** [_on_disconnect(self, client, userdata, rc)] *)
Definition _on_disconnect (self : MQTTPublisher) (rc : Z) : MQTTPublisher :=
  set_connected self false.

(** [_on_publish(self, client, userdata, mid)] *)
Definition _on_publish (self : MQTTPublisher) : MQTTPublisher :=
  incr_sent self.

(** The two topics, as the publish operations build them. *)
Definition event_topic (self : MQTTPublisher) : string :=
  topic_prefix self +:+ "/raw/" +:+ scanner_id self.

Definition status_topic (self : MQTTPublisher) : string :=
  topic_prefix self +:+ "/scanner/" +:+ scanner_id self +:+ "/status".

End MQTT.

(* ===================================================================== *)
(** * config.py and app.py                                                *)
(* ===================================================================== *)

Module App.

(** ** config.py: the dataclasses the orchestrator reads *)

Record ScannerConfig := mkScannerConfig {
  id : string;
  bluetooth_adapter : string
}.

Record MQTTConfig := mkMQTTConfig {
  mqtt_topic_prefix : string;
  mqtt_qos : Z
}.

Record DeduplicationConfig := mkDeduplicationConfig {
  dedup_enabled : bool;
  dedup_interval_seconds : Z
}.

Record BlocklistConfig := mkBlocklistConfig {
  blocklist_enabled : bool;
  blocklist_devices : list string
}.

Record HeartbeatConfig := mkHeartbeatConfig {
  heartbeat_enabled : bool;
  heartbeat_interval_seconds : Z
}.

Record Config := mkConfig {
  scanner : ScannerConfig;
  mqtt : MQTTConfig;
  deduplication : DeduplicationConfig;
  blocklist : BlocklistConfig;
  heartbeat : HeartbeatConfig
}.

(** ** app.py *)

(** [class ScannerApp]: configuration, the publisher once [run] has made
    it, and the counters. *)
Record ScannerApp := mkScannerApp {
  config : Config;
  mqtt_publisher : option MQTT.MQTTPublisher;
  _start_time : Q;
  _devices_seen : gset string;
  _messages_published : nat
}.

(** [ScannerApp(config)], with [now = time.time()]. *)
Definition init (config : Config) (now : Q) : ScannerApp :=
  {| config := config; mqtt_publisher := None; _start_time := now;
     _devices_seen := ∅; _messages_published := 0 |}.

(** The first statement of [run]: the publisher is built from the
    configuration. *)
Definition make_publisher (self : ScannerApp) : ScannerApp :=
  {| config := config self;
     mqtt_publisher :=
       Some (MQTT.init (id (scanner (config self)))
                       (mqtt_topic_prefix (mqtt (config self)))
                       (mqtt_qos (mqtt (config self))));
     _start_time := _start_time self;
     _devices_seen := _devices_seen self;
     _messages_published := _messages_published self |}.

Definition set_publisher (self : ScannerApp) (p : MQTT.MQTTPublisher)
    : ScannerApp :=
  {| config := config self; mqtt_publisher := Some p;
     _start_time := _start_time self;
     _devices_seen := _devices_seen self;
     _messages_published := _messages_published self |}.

(** The calls made on the publisher's two publish operations. *)
Inductive call :=
| CallPublishAdvertisement (advertisement : BLE.Advertisement)
| CallPublishStatus (status_data : list (string * MQTT.json)).

(** [_handle_advertisement(self, advertisement)]; [resp] answers the
    transport if the publisher reaches it. *)
Definition _handle_advertisement (self : ScannerApp)
    (advertisement : BLE.Advertisement) (resp : MQTT.send_response)
    : list call * ScannerApp :=
  let self1 :=
    {| config := config self; mqtt_publisher := mqtt_publisher self;
       _start_time := _start_time self;
       _devices_seen :=
         {[ BLE.device_address advertisement ]} ∪ _devices_seen self;
       _messages_published := _messages_published self |} in
  if blocklist_enabled (blocklist (config self))
     && bool_decide (BLE.device_address advertisement
                       ∈ blocklist_devices (blocklist (config self)))
  then ([], self1)
  else
    match mqtt_publisher self1 with
    | Some p =>
        let '(success, p') := MQTT.publish_advertisement p advertisement resp in
        let self2 := set_publisher self1 p' in
        ([CallPublishAdvertisement advertisement],
         match success with
         | MQTT.Return true =>
             {| config := config self2; mqtt_publisher := mqtt_publisher self2;
                _start_time := _start_time self2;
                _devices_seen := _devices_seen self2;
                _messages_published := _messages_published self2 + 1 |}
         | _ => self2
         end)
    | None => ([], self1)
    end.

(** The dictionary built by [_publish_status]. *)
Definition status_data (self : ScannerApp) (p : MQTT.MQTTPublisher)
    (now : Q) (now_iso : string) : list (string * MQTT.json) :=
  let uptime := MQTT.int_of_Q (Float64.sub now (_start_time self)) in
  let mqtt_stats := MQTT.get_statistics p now in
  [("timestamp", MQTT.JStr now_iso);
   ("status", MQTT.JStr "online");
   ("uptime_seconds", MQTT.JInt uptime);
   ("metrics", MQTT.JDict
      [("messages_sent", MQTT.JInt (Z.of_nat (_messages_published self)));
       ("messages_dropped",
          MQTT.JInt (Z.of_nat (MQTT.stat_messages_failed mqtt_stats)));
       ("devices_seen", MQTT.JInt (Z.of_nat (size (_devices_seen self))));
       ("devices_blocked", MQTT.JInt 0)]);
   ("bluetooth", MQTT.JDict
      [("adapter", MQTT.JStr (bluetooth_adapter (scanner (config self))));
       ("status", MQTT.JStr "scanning");
       ("errors", MQTT.JInt 0)]);
   ("mqtt", MQTT.JDict
      [("connected", MQTT.JBool (MQTT.stat_connected mqtt_stats));
       ("reconnections", MQTT.JInt 0)]);
   ("config", MQTT.JDict
      [("deduplication_enabled",
          MQTT.JBool (dedup_enabled (deduplication (config self))));
       ("deduplication_interval",
          MQTT.JInt (dedup_interval_seconds (deduplication (config self))));
       ("blocklist_count",
          MQTT.JInt (Z.of_nat (length (blocklist_devices
                                         (blocklist (config self))))))])].

(** [_publish_status(self)]; [now] and [now_iso] are the two clock
    readings, [resp] answers the transport. *)
Definition _publish_status (self : ScannerApp) (now : Q) (now_iso : string)
    (resp : MQTT.send_response) : list call * ScannerApp :=
  match mqtt_publisher self with
  | None => ([], self)
  | Some p =>
      let sd := status_data self p now now_iso in
      let '(_, p') := MQTT.publish_status p sd resp in
      ([CallPublishStatus sd], set_publisher self p')
  end.

(** [shutdown(self)], as far as the counters and the publisher go:
    [self.mqtt_publisher.disconnect()]. *)
Definition shutdown (self : ScannerApp) : ScannerApp :=
  match mqtt_publisher self with
  | Some p => set_publisher self (MQTT.disconnect p)
  | None => self
  end.

(** The detection path end to end: the capture backend calls
    [BLEScanner._handle_advertisement], whose callback is
    [ScannerApp._handle_advertisement] (as wired in [run]). *)
Definition detect (self : ScannerApp) (now_iso : string)
    (device : BLE.BLEDevice) (advertisement_data : BLE.AdvertisementData)
    (resp : MQTT.send_response) : list call * ScannerApp :=
  BLE._handle_advertisement (id (scanner (config self)))
    (Some (λ advertisement (s : list call * ScannerApp),
             let '(calls, app) := s in
             let '(calls', app') := _handle_advertisement app advertisement resp in
             (calls ++ calls', app')))
    now_iso device advertisement_data ([], self).

(** Several detections in a row. *)
Fixpoint detect_all (self : ScannerApp)
    (ds : list (string * BLE.BLEDevice * BLE.AdvertisementData
                * MQTT.send_response)) : list call * ScannerApp :=
  match ds with
  | [] => ([], self)
  | (now_iso, device, adv, resp) :: rest =>
      let '(calls, self1) := detect self now_iso device adv resp in
      let '(calls', self2) := detect_all self1 rest in
      (calls ++ calls', self2)
  end.

(** Everything that can happen to a running application: the operations
    of the orchestrator and, through it, of its publisher. *)
Inductive op :=
| OpDetection (now_iso : string) (device : BLE.BLEDevice)
    (advertisement_data : BLE.AdvertisementData) (resp : MQTT.send_response)
| OpHandleAdvertisement (advertisement : BLE.Advertisement)
    (resp : MQTT.send_response)
| OpPublishStatus (now : Q) (now_iso : string) (resp : MQTT.send_response)
| OpOnMqttConnect            (* [_on_mqtt_connect]: schedules a status task *)
| OpOnMqttDisconnect         (* [_on_mqtt_disconnect]: logs *)
| OpRequestShutdown          (* [request_shutdown]: sets the event *)
| OpShutdown
| OpPublisherConnect         (* [MQTTPublisher.connect] *)
| OpPublisherDisconnect      (* [MQTTPublisher.disconnect] *)
| OpPublisherPublishAdvertisement (advertisement : BLE.Advertisement)
    (resp : MQTT.send_response)
| OpPublisherPublishStatus (status_data : list (string * MQTT.json))
    (resp : MQTT.send_response)
| OpPublisherGetStatistics (now : Q)
| OpClientOnConnect (now : Q) (rc : Z)     (* [MQTTPublisher._on_connect] *)
| OpClientOnDisconnect (rc : Z)            (* [MQTTPublisher._on_disconnect] *)
| OpClientOnPublish.                       (* [MQTTPublisher._on_publish] *)

Definition on_publisher (self : ScannerApp)
    (f : MQTT.MQTTPublisher → MQTT.MQTTPublisher) : ScannerApp :=
  match mqtt_publisher self with
  | Some p => set_publisher self (f p)
  | None => self
  end.

Definition apply_op (self : ScannerApp) (o : op) : ScannerApp :=
  match o with
  | OpDetection now_iso device adv resp =>
      (detect self now_iso device adv resp).2
  | OpHandleAdvertisement advertisement resp =>
      (_handle_advertisement self advertisement resp).2
  | OpPublishStatus now now_iso resp =>
      (_publish_status self now now_iso resp).2
  | OpOnMqttConnect | OpOnMqttDisconnect | OpRequestShutdown => self
  | OpShutdown => shutdown self
  | OpPublisherConnect => self
  | OpPublisherDisconnect => on_publisher self MQTT.disconnect
  | OpPublisherPublishAdvertisement advertisement resp =>
      on_publisher self (λ p, (MQTT.publish_advertisement p advertisement resp).2)
  | OpPublisherPublishStatus sd resp =>
      on_publisher self (λ p, (MQTT.publish_status p sd resp).2)
  | OpPublisherGetStatistics now => self
  | OpClientOnConnect now rc =>
      on_publisher self (λ p, (MQTT._on_connect p now rc).1)
  | OpClientOnDisconnect rc =>
      on_publisher self (λ p, MQTT._on_disconnect p rc)
  | OpClientOnPublish => on_publisher self MQTT._on_publish
  end.

Definition run_ops (self : ScannerApp) (ops : list op) : ScannerApp :=
  foldl apply_op self ops.

(** The counters a status snapshot reports. *)
Definition messages_sent (self : ScannerApp) : nat :=
  from_option MQTT._messages_sent 0 (mqtt_publisher self).

Definition messages_failed (self : ScannerApp) : nat :=
  from_option MQTT._messages_failed 0 (mqtt_publisher self).

Definition devices_seen (self : ScannerApp) : nat :=
  size (_devices_seen self).

Definition publish_advertisement_calls (calls : list call)
    : list BLE.Advertisement :=
  calls ≫= λ c, match c with
                | CallPublishAdvertisement a => [a]
                | CallPublishStatus _ => []
                end.

(** Pointwise order on the counters. *)
Definition counters_le (a b : ScannerApp) : Prop :=
  messages_sent a ≤ messages_sent b
  ∧ messages_failed a ≤ messages_failed b
  ∧ devices_seen a ≤ devices_seen b
  ∧ _messages_published a ≤ _messages_published b.

(** ** The heartbeat task: [_heartbeat_loop]

    The coroutine rests at [await asyncio.sleep(interval)]; the status
    publish that follows has no [await] of its own. *)

Inductive hb_pc :=
| HbSleeping     (* [await asyncio.sleep(interval)] *)
| HbExited.      (* left through [except asyncio.CancelledError: break] *)

(** One resumption of the heartbeat task: the answer to the pending sleep,
    and what a status publish would read (two clock readings) and be
    answered by the transport. *)
Record hb_input := mkHbInput {
  hb_result : BLE.response;
  hb_now : Q;
  hb_now_iso : string;
  hb_resp : MQTT.send_response
}.

Definition heartbeat_step (s : hb_pc * ScannerApp) (i : hb_input)
    : list call * (hb_pc * ScannerApp) :=
  match s.1, hb_result i with
  | HbExited, _ => ([], s)
  | HbSleeping, BLE.Returned =>
      let '(calls, app') :=
        _publish_status s.2 (hb_now i) (hb_now_iso i) (hb_resp i) in
      (calls, (HbSleeping, app'))
  | HbSleeping, BLE.Cancelled => ([], (HbExited, s.2))          (* [break] *)
  | HbSleeping, BLE.Raised _ => ([], (HbSleeping, s.2))   (* logged, loop goes on *)
  end.

Fixpoint heartbeat_run (s : hb_pc * ScannerApp) (ins : list hb_input)
    : list call * (hb_pc * ScannerApp) :=
  match ins with
  | [] => ([], s)
  | i :: rest =>
      let '(calls, s1) := heartbeat_step s i in
      let '(calls', s2) := heartbeat_run s1 rest in
      (calls ++ calls', s2)
  end.

Definition is_completed_sleep (i : hb_input) : bool :=
  match hb_result i with BLE.Returned => true | _ => false end.

Definition is_cancel (i : hb_input) : bool :=
  match hb_result i with BLE.Cancelled => true | _ => false end.

(** The inputs up to, not including, the first cancellation. *)
Fixpoint before_cancel (ins : list hb_input) : list hb_input :=
  match ins with
  | [] => []
  | i :: rest => if is_cancel i then [] else i :: before_cancel rest
  end.

Fixpoint completed_sleeps (ins : list hb_input) : nat :=
  match ins with
  | [] => 0
  | i :: rest => (if is_completed_sleep i then 1 else 0) + completed_sleeps rest
  end.

Definition publish_status_calls (calls : list call)
    : list (list (string * MQTT.json)) :=
  calls ≫= λ c, match c with
                | CallPublishStatus sd => [sd]
                | CallPublishAdvertisement _ => []
                end.

(** The messages the publisher has handed to the transport. *)
Definition client_calls (self : ScannerApp) : list MQTT.message :=
  from_option MQTT._client_calls [] (mqtt_publisher self).

Definition connected (self : ScannerApp) : bool :=
  from_option MQTT._connected false (mqtt_publisher self).

(** The broker's notification of an accepted connection. *)
Definition successful_connect (o : op) : bool :=
  match o with
  | OpClientOnConnect _ rc => bool_decide (rc = 0%Z)
  | _ => false
  end.

Definition connect_time (self : ScannerApp) : option Q :=
  mqtt_publisher self ≫= MQTT._connect_time.

(** A message is an unretained event or a retained status report, on the
    topic of its kind. *)
Definition well_routed (p : MQTT.MQTTPublisher) (m : MQTT.message) : Prop :=
  MQTT.msg_qos m = MQTT.qos p
  ∧ ((MQTT.msg_topic m = MQTT.event_topic p ∧ MQTT.msg_retain m = false)
     ∨ (MQTT.msg_topic m = MQTT.status_topic p ∧ MQTT.msg_retain m = true)).

(** What one operation may do to the publisher: identity, topic prefix and
    QoS stay; unless it is the notification of an accepted connection, the
    connect time stays and a closed connection stays closed; and the
    transport is handed nothing, or one well-routed message while the
    connection is open. *)
Definition publisher_frame (o : op) (p p' : MQTT.MQTTPublisher) : Prop :=
  MQTT.scanner_id p' = MQTT.scanner_id p
  ∧ MQTT.topic_prefix p' = MQTT.topic_prefix p
  ∧ MQTT.qos p' = MQTT.qos p
  ∧ (successful_connect o = false →
       MQTT._connect_time p' = MQTT._connect_time p
       ∧ (MQTT._connected p = false → MQTT._connected p' = false))
  ∧ (MQTT._client_calls p' = MQTT._client_calls p
     ∨ (MQTT._connected p = true
        ∧ ∃ m : MQTT.message,
            MQTT._client_calls p' = m :: MQTT._client_calls p
            ∧ well_routed p m)).

(** The addresses, as normalised, of a list of detections. *)
Definition detected_addresses
    (ds : list (string * BLE.BLEDevice * BLE.AdvertisementData
                * MQTT.send_response)) : list string :=
  (λ d, BLE.upper (BLE.address d.1.1.2)) <$> ds.

(** The blocklist gate of [_handle_advertisement]. *)
Definition blocked (cfg : Config) (ad : BLE.Advertisement) : bool :=
  blocklist_enabled (blocklist cfg)
  && bool_decide (BLE.device_address ad ∈ blocklist_devices (blocklist cfg)).

(** The advertisements a list of detections is normalised to. *)
Definition normalised (self : ScannerApp)
    (ds : list (string * BLE.BLEDevice * BLE.AdvertisementData
                * MQTT.send_response)) : list BLE.Advertisement :=
  (λ d, BLE.make_advertisement (id (scanner (config self)))
          d.1.1.1 d.1.1.2 d.1.2) <$> ds.

End App.

(* ===================================================================== *)
(** * config.py: environment substitution                                 *)
(* ===================================================================== *)

Module Cfg.

(** What [yaml.safe_load] returns: scalars, strings, lists and mappings
    (string keys, in document order). *)
Inductive scalar :=
| SNull
| SBool (b : bool)
| SInt (n : Z).

Inductive yaml :=
| YScalar (v : scalar)
| YStr (s : string)
| YList (items : list yaml)
| YDict (fields : list (string * yaml)).

(** [s.startswith(prefix)] *)
Definition startswith (prefix s : string) : bool := String.prefix prefix s.

(** [s.endswith(suffix)]: some tail of [s] is [suffix]. *)
Fixpoint endswith (suffix s : string) : bool :=
  String.eqb suffix s
  || match s with
     | EmptyString => false
     | String _ rest => endswith suffix rest
     end.

(** [data[2:-1]] *)
Definition slice_2_m1 (data : string) : string :=
  String.substring 2 (String.length data - 3) data.

(** The [str] branch of [_substitute_env_vars]; [env] is [os.environ]. *)
Definition substitute_str (env : gmap string string) (data : string) : string :=
  if startswith "${" data && endswith "}" data then
    let var_name := slice_2_m1 data in
    default data (env !! var_name)
  else data.

(** [Config._substitute_env_vars(data)] *)
Fixpoint _substitute_env_vars (env : gmap string string) (data : yaml) : yaml :=
  match data with
  | YDict fields =>
      YDict ((fix items (kvs : list (string * yaml)) : list (string * yaml) :=
                match kvs with
                | [] => []
                | (k, v) :: rest => (k, _substitute_env_vars env v) :: items rest
                end) fields)
  | YList l =>
      YList ((fix each (l : list yaml) : list yaml :=
                match l with
                | [] => []
                | item :: rest => _substitute_env_vars env item :: each rest
                end) l)
  | YStr s => YStr (substitute_str env s)
  | YScalar v => YScalar v
  end.

End Cfg.

(* ===================================================================== *)
(** * Properties of the recency table                                     *)
(* ===================================================================== *)

Section DedupFacts.
Import Dedup.

Lemma ge_interval_true (elapsed : Q) (interval : Z) :
  ge_interval elapsed interval = true ↔ (inject_Z interval <= elapsed)%Q.
Proof. unfold ge_interval. apply Qle_bool_iff. Qed.


Lemma older_than_true (now last_seen : Q) (max_age : Z) :
  older_than now last_seen max_age = true
  ↔ (inject_Z max_age < now - last_seen)%Q.
Proof.
  unfold older_than. rewrite negb_true_iff. split; intros H.
  - apply Qnot_le_lt. intros Hle. apply Qle_bool_iff in Hle. congruence.
  - destruct (Qle_bool _ _) eqn:E; [|done].
    apply Qle_bool_iff in E. exfalso. by apply (Qlt_not_le _ _ H).
Qed.

Lemma older_than_false (now last_seen : Q) (max_age : Z) :
  older_than now last_seen max_age = false
  ↔ (now - last_seen <= inject_Z max_age)%Q.
Proof.
  unfold older_than. rewrite negb_false_iff. apply Qle_bool_iff.
Qed.

(** What one call does to the entry of an arbitrary address. *)
Lemma should_publish_lookup (d : Deduplicator) (now : Q) (a' a : string) :
  _last_seen (should_publish d now a').2 !! a
  = if (should_publish d now a').1 && bool_decide (a' = a)
    then Some now else _last_seen d !! a.
Proof.
  unfold should_publish.
  destruct (_last_seen d !! a') as [t|] eqn:E; simpl.
  - destruct (ge_interval _ _); simpl; [|done].
    case_bool_decide; subst; [by rewrite lookup_insert_eq|by rewrite lookup_insert_ne].
  - case_bool_decide; subst; [by rewrite lookup_insert_eq|by rewrite lookup_insert_ne].
Qed.

Lemma should_publish_interval (d : Deduplicator) (now : Q) (a : string) :
  interval_seconds (should_publish d now a).2 = interval_seconds d.
Proof.
  unfold should_publish. destruct (_ !! _); [destruct (ge_interval _ _)|]; done.
Qed.

Lemma run_calls_cons (d : Deduplicator) (now : Q) (a : string)
    (rest : list (Q * string)) :
  run_calls d ((now, a) :: rest)
  = ((should_publish d now a).1 :: (run_calls (should_publish d now a).2 rest).1,
     (run_calls (should_publish d now a).2 rest).2).
Proof.
  simpl. destruct (should_publish d now a) as [b d1]. simpl.
  by destruct (run_calls d1 rest).
Qed.

(** The table holds, for each address, the clock reading of its last
    publishing call. *)
Lemma run_calls_lookup (calls : list (Q * string)) :
  ∀ (d : Deduplicator) (a : string),
    _last_seen (run_calls d calls).2 !! a
    = match last_published a calls (run_calls d calls).1 with
      | Some t => Some t
      | None => _last_seen d !! a
      end.
Proof.
  induction calls as [|[now a'] rest IH]; intros d a; [done|].
  rewrite run_calls_cons. cbn [fst snd last_published].
  rewrite IH. destruct (last_published a rest _); [done|].
  rewrite should_publish_lookup. by destruct (_ && _).
Qed.

Lemma run_calls_interval (calls : list (Q * string)) :
  ∀ d : Deduplicator,
    interval_seconds (run_calls d calls).2 = interval_seconds d.
Proof.
  induction calls as [|[now a'] rest IH]; intros d; [done|].
  rewrite run_calls_cons. cbn [snd]. by rewrite IH, should_publish_interval.
Qed.


(** The [del] loop against a list of keys. *)
Lemma lookup_foldl_delete (ks : list string) :
  ∀ (m : gmap string Q) (j : string),
    foldl (λ m key, delete key m) m ks !! j
    = if decide (j ∈ ks) then None else m !! j.
Proof.
  induction ks as [|k ks IH]; intros m j; cbn [foldl].
  - destruct (decide (j ∈ [])) as [H|H]; [by apply elem_of_nil in H|done].
  - rewrite IH.
    destruct (decide (j ∈ ks)) as [Hin|Hnin];
      destruct (decide (j ∈ k :: ks)) as [Hin'|Hnin']; try done.
    + exfalso. apply Hnin'. by right.
    + apply elem_of_cons in Hin' as [->|?]; [|done].
      by rewrite lookup_delete_eq.
    + rewrite lookup_delete_ne; [done|].
      intros ->. apply Hnin'. by left.
Qed.

Lemma size_foldl_delete (ks : list string) :
  ∀ m : gmap string Q,
    NoDup ks → (∀ k, k ∈ ks → is_Some (m !! k)) →
    size (foldl (λ m key, delete key m) m ks) + length ks = size m.
Proof.
  induction ks as [|k ks IH]; intros m Hnd Hin; simpl; [lia|].
  apply NoDup_cons in Hnd as [Hk Hnd].
  rewrite Nat.add_succ_r, IH; [|done|].
  - assert (is_Some (m !! k)) as Hk' by (apply Hin; by left).
    pose proof (map_size_delete_Some k m Hk') as Hsz.
    destruct Hk' as [x Hx].
    assert (size m ≠ 0) by (intros ->%map_size_empty_inv; by rewrite lookup_empty in Hx).
    lia.
  - intros k' Hk'. rewrite lookup_delete_ne; [apply Hin; by right|].
    intros ->. done.
Qed.

Lemma elem_of_old_keys (d : Deduplicator) (now : Q) (max_age : Z) (a : string) :
  a ∈ old_keys d now max_age
  ↔ ∃ t, _last_seen d !! a = Some t ∧ older_than now t max_age = true.
Proof.
  unfold old_keys. rewrite list_elem_of_fmap. split.
  - intros [[a' t] [-> [Hold Hin]%list_elem_of_filter]].
    apply elem_of_map_to_list in Hin. eauto.
  - intros [t [Hl Hold]]. exists (a, t). split; [done|].
    apply list_elem_of_filter. split; [done|]. by apply elem_of_map_to_list.
Qed.

Lemma NoDup_old_keys (d : Deduplicator) (now : Q) (max_age : Z) :
  NoDup (old_keys d now max_age).
Proof.
  unfold old_keys.
  apply (sublist_NoDup _ ((map_to_list (_last_seen d)).*1)).
  - apply NoDup_fst_map_to_list.
  - apply fmap_sublist, sublist_filter.
Qed.

End DedupFacts.

Section Dedup64Facts.

Lemma older_than64_true (now last_seen : Q) (max_age : Z) :
  Dedup64.older_than now last_seen max_age = true
  ↔ (inject_Z max_age < Float64.sub now last_seen)%Q.
Proof.
  unfold Dedup64.older_than. rewrite negb_true_iff. split; intros H.
  - apply Qnot_le_lt. intros Hle. apply Qle_bool_iff in Hle. congruence.
  - destruct (Qle_bool _ _) eqn:E; [|done].
    apply Qle_bool_iff in E. exfalso. by apply (Qlt_not_le _ _ H).
Qed.

Lemma older_than64_false (now last_seen : Q) (max_age : Z) :
  Dedup64.older_than now last_seen max_age = false
  ↔ (Float64.sub now last_seen <= inject_Z max_age)%Q.
Proof.
  unfold Dedup64.older_than. rewrite negb_false_iff. apply Qle_bool_iff.
Qed.






Lemma elem_of_old_keys64 (d : Dedup.Deduplicator) (now : Q) (max_age : Z)
    (a : string) :
  a ∈ Dedup64.old_keys d now max_age
  ↔ ∃ t, Dedup._last_seen d !! a = Some t
         ∧ Dedup64.older_than now t max_age = true.
Proof.
  unfold Dedup64.old_keys. rewrite list_elem_of_fmap. split.
  - intros [[a' t] [-> [Hold Hin]%list_elem_of_filter]].
    apply elem_of_map_to_list in Hin. eauto.
  - intros [t [Hl Hold]]. exists (a, t). split; [done|].
    apply list_elem_of_filter. split; [done|]. by apply elem_of_map_to_list.
Qed.

Lemma NoDup_old_keys64 (d : Dedup.Deduplicator) (now : Q) (max_age : Z) :
  NoDup (Dedup64.old_keys d now max_age).
Proof.
  unfold Dedup64.old_keys.
  apply (sublist_NoDup _ ((map_to_list (Dedup._last_seen d)).*1)).
  - apply NoDup_fst_map_to_list.
  - apply fmap_sublist, sublist_filter.
Qed.

End Dedup64Facts.



(** C6.  For every table, clock reading and [max_age]: [clear_old_entries]
    deletes exactly the entries whose age exceeds [max_age], keeps every
    other entry with its reading, returns the number of entries deleted, and
    a deleted address publishes on its next sighting, which records the new
    reading.  The age is the difference the code computes, the float
    [now - last_seen]. *)
Theorem dedup_clear_old_entries
    (d : Dedup.Deduplicator) (now : Q) (max_age : Z) :
  let removed := (Dedup64.clear_old_entries d now max_age).1 in
  let d' := (Dedup64.clear_old_entries d now max_age).2 in
  (∀ (a : string) (t : Q),
     Dedup._last_seen d !! a = Some t →
     (inject_Z max_age < Float64.sub now t)%Q →
     Dedup._last_seen d' !! a = None)
  ∧ (∀ (a : string) (t : Q),
       Dedup._last_seen d !! a = Some t →
       (Float64.sub now t <= inject_Z max_age)%Q →
       Dedup._last_seen d' !! a = Some t)
  ∧ (∀ a : string,
       Dedup._last_seen d !! a = None → Dedup._last_seen d' !! a = None)
  ∧ removed + size (Dedup._last_seen d') = size (Dedup._last_seen d)
  ∧ Dedup.interval_seconds d' = Dedup.interval_seconds d
  ∧ (∀ (a : string) (t now' : Q),
       Dedup._last_seen d !! a = Some t →
       (inject_Z max_age < Float64.sub now t)%Q →
       (Dedup64.should_publish d' now' a).1 = true
       ∧ Dedup._last_seen (Dedup64.should_publish d' now' a).2 !! a
         = Some now').
Proof.
  intros removed d'.
  assert (∀ a t, Dedup._last_seen d !! a = Some t →
                 (inject_Z max_age < Float64.sub now t)%Q →
                 Dedup._last_seen d' !! a = None) as Hgone.
  { intros a t Hl Hold. unfold d', Dedup64.clear_old_entries.
    cbn [snd Dedup._last_seen].
    rewrite lookup_foldl_delete. rewrite decide_True; [done|].
    apply elem_of_old_keys64. exists t. split; [done|].
    by apply older_than64_true. }
  split; [exact Hgone|]. split; [|split; [|split; [|split]]].
  - intros a t Hl Hyoung. unfold d', Dedup64.clear_old_entries.
    cbn [snd Dedup._last_seen]. rewrite lookup_foldl_delete.
    rewrite decide_False; [done|].
    intros [t' [Hl' Hold]]%elem_of_old_keys64.
    rewrite Hl in Hl'. injection Hl' as <-.
    apply older_than64_false in Hyoung. congruence.
  - intros a Hl. unfold d', Dedup64.clear_old_entries.
    cbn [snd Dedup._last_seen]. rewrite lookup_foldl_delete.
    by destruct (decide _).
  - unfold removed, d', Dedup64.clear_old_entries.
    cbn [fst snd Dedup._last_seen].
    rewrite Nat.add_comm. apply size_foldl_delete; [apply NoDup_old_keys64|].
    intros k [t [Hl _]]%elem_of_old_keys64. eauto.
  - done.
  - intros a t now' Hl Hold. specialize (Hgone a t Hl Hold).
    unfold Dedup64.should_publish. rewrite Hgone.
    cbn [fst snd Dedup._last_seen].
    split; [done|apply lookup_insert_eq].
Qed.

(* ===================================================================== *)
(** * Properties of the scan loop                                         *)
(* ===================================================================== *)

Section ScanLoopFacts.
Import BLE.

Lemma run_app (ins1 ins2 : list input) :
  ∀ st : ScanState,
    run st (ins1 ++ ins2)
    = ((run st ins1).1 ++ (run (run st ins1).2 ins2).1,
       (run (run st ins1).2 ins2).2).
Proof.
  induction ins1 as [|i ins1 IH]; intros st; simpl.
  - by destruct (run st ins2).
  - destruct (step st i) as [evs st1]. rewrite IH.
    destruct (run st1 ins1) as [evs1 st2]. simpl.
    destruct (run st2 ins2) as [evs2 st3]. simpl.
    by rewrite app_assoc.
Qed.

(** Once the coroutine has ended with [_running] cleared, nothing resumes
    it: no event, no change. *)
Lemma step_exited (st : ScanState) (i : input) :
  at_pc st = Exited → _running st = false → step st i = ([], st).
Proof.
  destruct st as [r h c p]. simpl. intros -> ->.
  unfold step. by destruct (stop_requested i).
Qed.

Lemma run_exited (ins : list input) :
  ∀ st : ScanState,
    at_pc st = Exited → _running st = false → run st ins = ([], st).
Proof.
  induction ins as [|i ins IH]; intros st Hpc Hr; [done|].
  simpl. rewrite step_exited by done. by rewrite IH.
Qed.

(** One failing start attempt below the retry cap, with its sleep. *)
Lemma run_one_failure (c : nat) (e : exn) :
  c + 1 < max_retries →
  run {| _running := true; has_scanner := true;
         retry_count := c; at_pc := AwaitStart |}
      [resume (Raised e); resume Returned]
  = (failure_events c [e],
     {| _running := true; has_scanner := true;
        retry_count := c + 1; at_pc := AwaitStart |}).
Proof.
  intros Hlt. cbn [run step resume stop_requested result at_pc].
  unfold on_exception. cbn [retry_count _running has_scanner at_pc].
  destruct (max_retries <=? c + 1) eqn:E; [apply Nat.leb_le in E; lia|].
  cbn [set_pc retry_count _running has_scanner at_pc step resume
       stop_requested result loop_head].
  cbn [failure_events app]. unfold backoff.
  by replace (c + 1 + 1) with (c + 2) by lia.
Qed.

Lemma failed_attempts_cons (e : exn) (es : list exn) :
  failed_attempts (e :: es)
  = [resume (Raised e); resume Returned] ++ failed_attempts es.
Proof. done. Qed.

Lemma failed_attempts_app (es1 es2 : list exn) :
  failed_attempts (es1 ++ es2) = failed_attempts es1 ++ failed_attempts es2.
Proof. unfold failed_attempts. apply bind_app. Qed.

(** Any number of failing start attempts that stays below the cap. *)
Lemma run_failed_attempts (es : list exn) :
  ∀ c : nat,
    c + length es < max_retries →
    run {| _running := true; has_scanner := true;
           retry_count := c; at_pc := AwaitStart |}
        (failed_attempts es)
    = (failure_events c es,
       {| _running := true; has_scanner := true;
          retry_count := c + length es; at_pc := AwaitStart |}).
Proof.
  induction es as [|e es IH]; intros c Hlt.
  - simpl. by rewrite Nat.add_0_r.
  - simpl in Hlt. rewrite failed_attempts_cons, run_app.
    rewrite run_one_failure by lia. cbn [fst snd].
    rewrite IH by lia. cbn [fst snd length failure_events].
    rewrite app_nil_r.
    by replace (c + 1 + length es) with (c + S (length es)) by lia.
Qed.

Lemma start_attempts_app (evs1 evs2 : list event) :
  start_attempts (evs1 ++ evs2) = start_attempts evs1 + start_attempts evs2.
Proof.
  induction evs1 as [|ev evs1 IH]; [done|].
  cbn [app start_attempts]. rewrite IH. lia.
Qed.

Lemma start_attempts_failure_events (es : list exn) :
  ∀ c : nat, start_attempts (failure_events c es) = length es.
Proof.
  induction es as [|e es IH]; intros c; [done|].
  cbn [failure_events]. rewrite start_attempts_app, IH. done.
Qed.

Lemma sleeps_app (evs1 evs2 : list event) :
  sleeps (evs1 ++ evs2) = sleeps evs1 ++ sleeps evs2.
Proof. unfold sleeps. apply bind_app. Qed.

Lemma sleeps_failure_events (es : list exn) :
  ∀ c : nat,
    sleeps (failure_events c es) = backoff <$> seq (c + 1) (length es).
Proof.
  induction es as [|e es IH]; intros c; [done|].
  cbn [failure_events]. rewrite sleeps_app, IH.
  cbn [length seq fmap list_fmap]. simpl.
  by replace (c + 1 + 1) with (S (c + 1)) by lia.
Qed.

Lemma start_eq :
  start = ([EvStartAttempt 1],
           {| _running := true; has_scanner := true;
              retry_count := 0; at_pc := AwaitStart |}).
Proof. done. Qed.

Lemma scan_task_eq (ins : list input) :
  scan_task ins
  = (EvStartAttempt 1
       :: (run {| _running := true; has_scanner := true;
                  retry_count := 0; at_pc := AwaitStart |} ins).1,
     (run {| _running := true; has_scanner := true;
             retry_count := 0; at_pc := AwaitStart |} ins).2).
Proof.
  unfold scan_task. rewrite start_eq. by destruct (run _ ins).
Qed.

End ScanLoopFacts.

Section ScanLoopClaims.
Import BLE.

Lemma step_failure_below_cap (c : nat) (e : exn) :
  c + 1 < max_retries →
  step {| _running := true; has_scanner := true;
          retry_count := c; at_pc := AwaitStart |} (resume (Raised e))
  = ([EvError (classify (str e)) (c + 1); EvSleep (backoff (c + 1))],
     {| _running := true; has_scanner := true;
        retry_count := c + 1; at_pc := AwaitSleep |}).
Proof.
  intros Hlt. cbn [step resume stop_requested result at_pc].
  unfold on_exception. cbn [retry_count _running has_scanner at_pc].
  destruct (max_retries <=? c + 1) eqn:E; [apply Nat.leb_le in E; lia|].
  done.
Qed.

Lemma step_failure_at_cap (c : nat) (e : exn) :
  c + 1 = max_retries →
  step {| _running := true; has_scanner := true;
          retry_count := c; at_pc := AwaitStart |} (resume (Raised e))
  = ([EvError (classify (str e)) max_retries; EvGiveUp],
     {| _running := false; has_scanner := true;
        retry_count := max_retries; at_pc := Exited |}).
Proof.
  intros Heq. cbn [step resume stop_requested result at_pc].
  unfold on_exception. cbn [retry_count _running has_scanner at_pc].
  rewrite Heq. by rewrite Nat.leb_refl.
Qed.

Lemma start_attempt_resets (st : ScanState) (stop : bool) :
  at_pc st = AwaitStart →
  retry_count (step st {| stop_requested := stop; result := Returned |}).2 = 0.
Proof.
  destruct st as [r h c p]. simpl. intros ->.
  unfold step, poll_head. destruct stop, r; done.
Qed.

End ScanLoopClaims.

(** C2.  Ten consecutive failing start attempts (each back-off sleep running
    to completion) end the scan loop for good: the tenth failure is followed
    by the give-up report, [_running] is cleared and the coroutine has
    ended; whatever the environment does afterwards, the trace has exactly
    ten start attempts, so an eleventh failure is never followed by a
    twelfth start (nor is an eleventh start made at all). *)
Theorem scan_loop_gives_up_after_max_retries
    (es : list BLE.exn) (rest : list BLE.input) :
  length es = BLE.max_retries →
  let r := BLE.scan_task (BLE.failed_attempts es ++ rest) in
  BLE.start_attempts r.1 = 10
  ∧ last r.1 = Some BLE.EvGiveUp
  ∧ BLE.at_pc r.2 = BLE.Exited
  ∧ BLE._running r.2 = false
  ∧ BLE.retry_count r.2 = 10
  ∧ BLE.sleeps r.1 = [5; 10; 15; 20; 25; 30; 30; 30; 30]
  ∧ r = BLE.scan_task (BLE.failed_attempts es).
Proof.
  intros Hlen.
  destruct es as [|e es' _] using rev_ind; [done|].
  rewrite length_app in Hlen. cbn in Hlen.
  assert (length es' = 9) as Hlen' by (unfold BLE.max_retries in Hlen; lia).
  assert (∀ tail,
    BLE.scan_task (BLE.failed_attempts (es' ++ [e]) ++ tail)
    = (BLE.EvStartAttempt 1 :: BLE.failure_events 0 es'
         ++ [BLE.EvError (BLE.classify (BLE.str e)) BLE.max_retries; BLE.EvGiveUp],
       {| BLE._running := false; BLE.has_scanner := true;
          BLE.retry_count := BLE.max_retries; BLE.at_pc := BLE.Exited |})) as Hrun.
  { intros tail. rewrite scan_task_eq, failed_attempts_app, <- app_assoc, run_app.
    rewrite run_failed_attempts by (rewrite Hlen'; unfold BLE.max_retries; lia).
    cbn [fst snd]. rewrite failed_attempts_cons. cbn [app BLE.failed_attempts mbind list_bind].
    cbn [BLE.run]. rewrite step_failure_at_cap by (rewrite Hlen'; done).
    rewrite step_exited by done. rewrite run_exited by done.
    cbn [fst snd]. by rewrite !app_nil_r. }
  intros r. unfold r. rewrite Hrun.
  rewrite <- (app_nil_r (BLE.failed_attempts (es' ++ [e]))).
  rewrite Hrun. cbn [fst snd].
  split; [|split; [|split; [|split; [|split; [|split]]]]]; try done.
  - change (BLE.start_attempts
              ([BLE.EvStartAttempt 1] ++ BLE.failure_events 0 es'
               ++ [BLE.EvError (BLE.classify (BLE.str e)) BLE.max_retries;
                   BLE.EvGiveUp]) = 10).
    rewrite !start_attempts_app, start_attempts_failure_events, Hlen'. done.
  - rewrite last_cons, last_app. done.
  - change (BLE.sleeps
              ([BLE.EvStartAttempt 1] ++ BLE.failure_events 0 es'
               ++ [BLE.EvError (BLE.classify (BLE.str e)) BLE.max_retries;
                   BLE.EvGiveUp]) = [5; 10; 15; 20; 25; 30; 30; 30; 30]).
    rewrite !sleeps_app, sleeps_failure_events, Hlen'. reflexivity.
Qed.

(** C2 at work: eleven failures announced by the environment; the loop stops
    at the tenth and makes ten start attempts in all. *)
Lemma scan_loop_gives_up_after_max_retries_witness :
  let es := replicate 10 (BLE.Exception "Resource Not Ready") in
  let eleventh := [BLE.resume (BLE.Raised (BLE.Exception "Resource Not Ready"));
                   BLE.resume BLE.Returned] in
  let r := BLE.scan_task (BLE.failed_attempts es ++ eleventh) in
  length es = BLE.max_retries
  ∧ BLE.start_attempts r.1 = 10
  ∧ BLE.at_pc r.2 = BLE.Exited
  ∧ BLE._running r.2 = false.
Proof.
  intros es eleventh r.
  split; [reflexivity|].
  destruct (scan_loop_gives_up_after_max_retries es eleventh eq_refl)
    as (Hn & _ & Hpc & Hrun & _).
  exact (conj Hn (conj Hpc Hrun)).
Defined.

(** C5.  On the [k]-th consecutive start failure, [1 <= k < 10], the loop
    counts it, reports it and sleeps [min (5 * k) 30] seconds; when the
    sleep is over it makes start attempt [k + 1]; and a start that succeeds
    sets the counter back to 0 (from any counter value). *)
Theorem scan_loop_backoff (es : list BLE.exn) (e : BLE.exn) :
  let k := length es + 1 in
  k < BLE.max_retries →
  let failing :=
    BLE.scan_task (BLE.failed_attempts es ++ [BLE.resume (BLE.Raised e)]) in
  let retried := BLE.scan_task (BLE.failed_attempts (es ++ [e])) in
  let started :=
    BLE.scan_task (BLE.failed_attempts (es ++ [e]) ++ [BLE.resume BLE.Returned]) in
  (BLE.retry_count failing.2 = k
   ∧ BLE.at_pc failing.2 = BLE.AwaitSleep
   ∧ last failing.1 = Some (BLE.EvSleep (Nat.min (5 * k) 30))
   ∧ BLE.sleeps failing.1 = (λ j, Nat.min (5 * j) 30) <$> seq 1 k)
  ∧ (BLE.at_pc retried.2 = BLE.AwaitStart
     ∧ BLE.retry_count retried.2 = k
     ∧ last retried.1 = Some (BLE.EvStartAttempt (k + 1)))
  ∧ (BLE.retry_count started.2 = 0
     ∧ BLE.at_pc started.2 = BLE.AwaitPoll
     ∧ BLE.start_attempts started.1 = k + 1)
  ∧ (∀ (st : BLE.ScanState) (stop : bool),
       BLE.at_pc st = BLE.AwaitStart →
       BLE.retry_count
         (BLE.step st {| BLE.stop_requested := stop;
                         BLE.result := BLE.Returned |}).2 = 0).
Proof.
  intros k Hk failing retried started.
  assert (length es + 1 < BLE.max_retries) as Hk' by exact Hk.
  assert (failing
          = (BLE.EvStartAttempt 1 :: BLE.failure_events 0 es
               ++ [BLE.EvError (BLE.classify (BLE.str e)) k;
                   BLE.EvSleep (BLE.backoff k)],
             {| BLE._running := true; BLE.has_scanner := true;
                BLE.retry_count := k; BLE.at_pc := BLE.AwaitSleep |})) as ->.
  { unfold failing. rewrite scan_task_eq, run_app.
    rewrite run_failed_attempts by (simpl; lia). cbn [fst snd BLE.run].
    cbn [plus]. rewrite step_failure_below_cap by done. cbn [fst snd].
    by rewrite app_nil_r. }
  assert (retried
          = (BLE.EvStartAttempt 1 :: BLE.failure_events 0 es
               ++ [BLE.EvError (BLE.classify (BLE.str e)) k;
                   BLE.EvSleep (BLE.backoff k); BLE.EvStartAttempt (k + 1)],
             {| BLE._running := true; BLE.has_scanner := true;
                BLE.retry_count := k; BLE.at_pc := BLE.AwaitStart |})) as Hretried.
  { unfold retried. rewrite scan_task_eq, failed_attempts_app, run_app.
    rewrite run_failed_attempts by (simpl; lia). cbn [fst snd plus].
    rewrite (run_failed_attempts [e]) by (simpl; lia).
    cbn [fst snd length BLE.failure_events]. rewrite app_nil_r. fold k.
    by replace (length es + 2) with (k + 1) by (unfold k; lia). }
  assert (started = (retried.1, {| BLE._running := true; BLE.has_scanner := true;
                                   BLE.retry_count := 0;
                                   BLE.at_pc := BLE.AwaitPoll |})) as ->.
  { unfold started. rewrite scan_task_eq, run_app. fold retried.
    assert (BLE.run
              {| BLE._running := true; BLE.has_scanner := true;
                 BLE.retry_count := 0; BLE.at_pc := BLE.AwaitStart |}
              (BLE.failed_attempts (es ++ [e]))
            = (tail retried.1, retried.2)) as ->.
    { unfold retried. rewrite scan_task_eq. by destruct (BLE.run _ _). }
    rewrite Hretried. cbn [fst snd tail]. cbn. by rewrite app_nil_r. }
  rewrite Hretried. cbn [fst snd BLE.retry_count BLE.at_pc].
  split; [|split; [|split]].
  - split; [done|split; [done|split]].
    + rewrite last_cons, last_app. done.
    + change (BLE.sleeps ([BLE.EvStartAttempt 1] ++ BLE.failure_events 0 es
                          ++ [BLE.EvError (BLE.classify (BLE.str e)) k;
                              BLE.EvSleep (BLE.backoff k)])
              = BLE.backoff <$> seq 1 k).
      rewrite !sleeps_app, sleeps_failure_events. unfold k.
      replace (length es + 1) with (S (length es)) by lia.
      rewrite seq_S, fmap_app. reflexivity.
  - split; [done|split; [done|]].
    rewrite last_cons, last_app. done.
  - split; [done|split; [done|]].
    change (BLE.start_attempts
              ([BLE.EvStartAttempt 1] ++ BLE.failure_events 0 es
               ++ [BLE.EvError (BLE.classify (BLE.str e)) k;
                   BLE.EvSleep (BLE.backoff k); BLE.EvStartAttempt (k + 1)])
            = k + 1).
    rewrite !start_attempts_app, start_attempts_failure_events.
    unfold k. cbn [BLE.start_attempts BLE.is_start_attempt]. lia.
  - intros st stop Hpc. by apply start_attempt_resets.
Qed.

(** C5 at work: the third consecutive failure ([k = 3]); the sleeps so far
    are 5, 10 and 15 seconds, and a fourth attempt that succeeds resets the
    counter. *)
Lemma scan_loop_backoff_witness :
  let es := [BLE.Exception "Resource Not Ready"; BLE.TimeoutError] in
  let e := BLE.Exception "Permission denied" in
  length es + 1 < BLE.max_retries
  ∧ BLE.sleeps
      (BLE.scan_task (BLE.failed_attempts es ++ [BLE.resume (BLE.Raised e)])).1
    = [5; 10; 15]
  ∧ BLE.retry_count
      (BLE.scan_task (BLE.failed_attempts (es ++ [e])
                      ++ [BLE.resume BLE.Returned])).2 = 0.
Proof.
  intros es e.
  assert (length es + 1 < BLE.max_retries) as Hk by (vm_compute; lia).
  split; [exact Hk|].
  destruct (scan_loop_backoff es e Hk) as ((_ & _ & _ & Hs) & _ & (Hz & _) & _).
  exact (conj Hs Hz).
Defined.

(* ===================================================================== *)
(** * Properties of the publisher                                         *)
(* ===================================================================== *)

Section PublisherFacts.
Import MQTT.

Lemma publish_advertisement_disconnected
    (self : MQTTPublisher) (ad : BLE.Advertisement) (resp : send_response) :
  _connected self = false →
  publish_advertisement self ad resp = (Return false, incr_failed self).
Proof. intros H. unfold publish_advertisement. by rewrite H. Qed.

Lemma publish_advertisement_connected
    (self : MQTTPublisher) (ad : BLE.Advertisement) (resp : send_response) :
  _connected self = true →
  publish_advertisement self ad resp
  = let sent :=
      (client_publish self
         {| msg_topic := topic_prefix self +:+ "/raw/" +:+ scanner_id self;
            msg_payload := to_dict ad; msg_qos := qos self;
            msg_retain := false |} resp).2 in
    match resp with
    | SendRc rc =>
        if decide (rc = MQTT_ERR_SUCCESS) then (Return true, sent)
        else (Return false, incr_failed sent)
    | SendRaises _ => (Return false, incr_failed sent)
    end.
Proof.
  intros H. unfold publish_advertisement. rewrite H. cbn [negb].
  destruct resp as [rc|msg]; cbn [client_publish try_except snd];
    [destruct (decide _)|]; done.
Qed.

Lemma publish_advertisement_returns
    (self : MQTTPublisher) (ad : BLE.Advertisement) (resp : send_response) :
  ∃ b : bool, (publish_advertisement self ad resp).1 = Return b.
Proof.
  destruct (_connected self) eqn:E.
  - rewrite publish_advertisement_connected by done.
    destruct resp as [rc|msg]; cbn zeta; [destruct (decide _)|]; eauto.
  - rewrite publish_advertisement_disconnected by done. eauto.
Qed.

Lemma publish_advertisement_counters
    (self : MQTTPublisher) (ad : BLE.Advertisement) (resp : send_response) :
  _messages_sent (publish_advertisement self ad resp).2 = _messages_sent self
  ∧ _messages_failed self ≤ _messages_failed (publish_advertisement self ad resp).2.
Proof.
  destruct (_connected self) eqn:E.
  - rewrite publish_advertisement_connected by done.
    destruct resp as [rc|msg]; cbn zeta; [destruct (decide _)|]; simpl; split; lia.
  - rewrite publish_advertisement_disconnected by done. simpl. split; lia.
Qed.

Lemma publish_status_state
    (self : MQTTPublisher) (sd : list (string * json)) (resp : send_response) :
  _messages_failed (publish_status self sd resp).2 = _messages_failed self
  ∧ _messages_sent (publish_status self sd resp).2 = _messages_sent self
  ∧ ∃ b : bool, (publish_status self sd resp).1 = Return b.
Proof.
  unfold publish_status. destruct (_connected self); cbn [negb].
  - destruct resp as [rc|msg]; cbn [client_publish try_except];
      [destruct (decide _)|]; simpl; eauto.
  - eauto.
Qed.

End PublisherFacts.

(** C3.  [publish_advertisement] always returns a boolean, it never raises.
    Called while [_connected] is false it returns false and adds exactly one
    to [_messages_failed], touching neither [_messages_sent] nor the
    transport.  Called while connected with the send accepted
    ([rc = MQTT_ERR_SUCCESS]) it returns true, hands one unretained message
    on the event topic to the transport and leaves both counters as they
    are; the delivery confirmation [_on_publish] then adds exactly one to
    [_messages_sent].  A rejected or raising send returns false and counts
    one failure. *)
Theorem publish_advertisement_contract
    (self : MQTT.MQTTPublisher) (ad : BLE.Advertisement)
    (resp : MQTT.send_response) :
  let r := MQTT.publish_advertisement self ad resp in
  (∃ b : bool, r.1 = MQTT.Return b)
  ∧ (MQTT._connected self = false →
       r.1 = MQTT.Return false
       ∧ MQTT._messages_failed r.2 = MQTT._messages_failed self + 1
       ∧ MQTT._messages_sent r.2 = MQTT._messages_sent self
       ∧ MQTT._client_calls r.2 = MQTT._client_calls self)
  ∧ (MQTT._connected self = true → resp = MQTT.SendRc MQTT.MQTT_ERR_SUCCESS →
       r.1 = MQTT.Return true
       ∧ MQTT._messages_failed r.2 = MQTT._messages_failed self
       ∧ MQTT._messages_sent r.2 = MQTT._messages_sent self
       ∧ MQTT._messages_sent (MQTT._on_publish r.2) = MQTT._messages_sent self + 1
       ∧ MQTT._messages_failed (MQTT._on_publish r.2) = MQTT._messages_failed self
       ∧ MQTT._client_calls r.2
         = {| MQTT.msg_topic :=
                MQTT.topic_prefix self +:+ "/raw/" +:+ MQTT.scanner_id self;
              MQTT.msg_payload := MQTT.to_dict ad;
              MQTT.msg_qos := MQTT.qos self;
              MQTT.msg_retain := false |} :: MQTT._client_calls self)
  ∧ (MQTT._connected self = true → resp ≠ MQTT.SendRc MQTT.MQTT_ERR_SUCCESS →
       r.1 = MQTT.Return false
       ∧ MQTT._messages_failed r.2 = MQTT._messages_failed self + 1
       ∧ MQTT._messages_sent r.2 = MQTT._messages_sent self).
Proof.
  intros r. split; [apply publish_advertisement_returns|].
  split; [|split].
  - intros Hc. unfold r. by rewrite publish_advertisement_disconnected.
  - intros Hc ->. unfold r. rewrite publish_advertisement_connected by done.
    cbn zeta. rewrite decide_True by done. done.
  - intros Hc Hresp. unfold r. rewrite publish_advertisement_connected by done.
    cbn zeta. destruct resp as [rc|msg]; [|done].
    rewrite decide_False by congruence. done.
Qed.

(** C3 at work: a fresh publisher (not yet connected) drops and counts; once
    the broker has confirmed the connection an accepted send returns true
    and its confirmation counts one sent message. *)
Lemma publish_advertisement_contract_witness :
  let ad := BLE.make_advertisement "s1" "2024-01-01T00:00:00+00:00"
              {| BLE.address := "aa:bb:cc:dd:ee:ff" |}
              {| BLE.adv_local_name := None; BLE.adv_rssi := -60;
                 BLE.adv_manufacturer_data := ∅; BLE.adv_service_data := ∅;
                 BLE.adv_service_uuids := [] |} in
  let p0 := MQTT.init "s1" "bt-mqtt" 1 in
  let p1 := (MQTT._on_connect p0 0 0).1 in
  ((MQTT.publish_advertisement p0 ad (MQTT.SendRc 0)).1 = MQTT.Return false
   ∧ MQTT._messages_failed (MQTT.publish_advertisement p0 ad (MQTT.SendRc 0)).2 = 1)
  ∧ ((MQTT.publish_advertisement p1 ad (MQTT.SendRc 0)).1 = MQTT.Return true
     ∧ MQTT._messages_sent
         (MQTT._on_publish (MQTT.publish_advertisement p1 ad (MQTT.SendRc 0)).2) = 1)
  ∧ ((MQTT.publish_advertisement p1 ad (MQTT.SendRc 4)).1 = MQTT.Return false
     ∧ MQTT._messages_failed (MQTT.publish_advertisement p1 ad (MQTT.SendRc 4)).2 = 1).
Proof.
  intros ad p0 p1.
  destruct (publish_advertisement_contract p0 ad (MQTT.SendRc 0))
    as (_ & Hoff & _ & _).
  destruct (publish_advertisement_contract p1 ad (MQTT.SendRc 0))
    as (_ & _ & Hon & _).
  destruct (publish_advertisement_contract p1 ad (MQTT.SendRc 4))
    as (_ & _ & _ & Hrej).
  destruct (Hoff eq_refl) as (H1 & H2 & _).
  destruct (Hon eq_refl eq_refl) as (H3 & _ & _ & H4 & _).
  destruct (Hrej eq_refl ltac:(discriminate)) as (H5 & H6 & _).
  exact (conj (conj H1 H2) (conj (conj H3 H4) (conj H5 H6))).
Defined.

(** C9.  Whatever happens to a [publish_status] call (not connected, send
    accepted, send rejected, exception), it returns a boolean and leaves
    [_messages_failed] (and [_messages_sent]) as it found them; the same
    holds for the orchestrator's [_publish_status]. *)
Theorem publish_status_never_counts_failure
    (self : MQTT.MQTTPublisher) (sd : list (string * MQTT.json))
    (resp : MQTT.send_response) :
  MQTT._messages_failed (MQTT.publish_status self sd resp).2
  = MQTT._messages_failed self
  ∧ (∃ b : bool, (MQTT.publish_status self sd resp).1 = MQTT.Return b)
  ∧ (∀ (app : App.ScannerApp) (now : Q) (now_iso : string),
       App.messages_failed (App._publish_status app now now_iso resp).2
       = App.messages_failed app).
Proof.
  destruct (publish_status_state self sd resp) as (Hf & _ & Hb).
  split; [done|split; [done|]].
  intros app now now_iso. unfold App._publish_status, App.messages_failed.
  destruct (App.mqtt_publisher app) as [p|] eqn:E; [|cbn [snd]; by rewrite E].
  destruct (MQTT.publish_status p _ resp) as [c p'] eqn:Ep. cbn.
  pose proof (publish_status_state p (App.status_data app p now now_iso) resp)
    as (Hf' & _).
  by rewrite Ep in Hf'.
Qed.

(* ===================================================================== *)
(** * Properties of the orchestrator                                      *)
(* ===================================================================== *)

Section AppFacts.
Import App.

Lemma counters_le_refl (a : ScannerApp) : counters_le a a.
Proof. unfold counters_le. lia. Qed.

Lemma counters_le_trans (a b c : ScannerApp) :
  counters_le a b → counters_le b c → counters_le a c.
Proof. unfold counters_le. lia. Qed.

Lemma on_publisher_le (self : ScannerApp)
    (f : MQTT.MQTTPublisher → MQTT.MQTTPublisher) :
  (∀ p, MQTT._messages_sent p ≤ MQTT._messages_sent (f p)
        ∧ MQTT._messages_failed p ≤ MQTT._messages_failed (f p)) →
  counters_le self (on_publisher self f).
Proof.
  intros Hf. unfold on_publisher, counters_le, messages_sent, messages_failed,
    devices_seen.
  destruct (mqtt_publisher self) as [p|] eqn:E; [|rewrite ?E; simpl; lia].
  destruct (Hf p). simpl. lia.
Qed.

(** The pipeline is the orchestrator's handler applied to the normalised
    detection. *)
Lemma detect_eq (self : ScannerApp) (now_iso : string)
    (device : BLE.BLEDevice) (adv : BLE.AdvertisementData)
    (resp : MQTT.send_response) :
  detect self now_iso device adv resp
  = _handle_advertisement self
      (BLE.make_advertisement (id (scanner (config self))) now_iso device adv)
      resp.
Proof.
  unfold detect, BLE._handle_advertisement.
  by destruct (_handle_advertisement _ _ _).
Qed.

Lemma handle_advertisement_le (self : ScannerApp)
    (ad : BLE.Advertisement) (resp : MQTT.send_response) :
  counters_le self (_handle_advertisement self ad resp).2.
Proof.
  assert (size (_devices_seen self)
          ≤ size ({[BLE.device_address ad]} ∪ _devices_seen self)) as Hseen
    by (apply subseteq_size; set_solver).
  unfold _handle_advertisement, counters_le, messages_sent, messages_failed,
    devices_seen.
  destruct (_ && _); [simpl; lia|].
  cbn [mqtt_publisher].
  destruct (mqtt_publisher self) as [p|] eqn:E; [|simpl; rewrite ?E; simpl; lia].
  pose proof (publish_advertisement_counters p ad resp) as [Hs Hf].
  destruct (MQTT.publish_advertisement p ad resp) as [c p'].
  cbn [snd] in *. destruct c as [[|]|]; simpl; lia.
Qed.

Lemma publish_status_le (self : ScannerApp) (now : Q) (now_iso : string)
    (resp : MQTT.send_response) :
  counters_le self (_publish_status self now now_iso resp).2.
Proof.
  unfold _publish_status, counters_le, messages_sent, messages_failed,
    devices_seen.
  destruct (mqtt_publisher self) as [p|] eqn:E; [|simpl; rewrite ?E; simpl; lia].
  pose proof (publish_status_state p (status_data self p now now_iso) resp)
    as (Hf & Hs & _).
  destruct (MQTT.publish_status p _ resp) as [c p']. cbn [snd] in *.
  simpl. lia.
Qed.

Lemma apply_op_le (self : ScannerApp) (o : op) :
  counters_le self (apply_op self o).
Proof.
  destruct o as [now_iso device adv resp|advertisement resp|now now_iso resp
                | | | | | | |advertisement resp|sd resp|now|now rc|rc|];
    cbn [apply_op]; try apply counters_le_refl.
  - rewrite detect_eq. apply handle_advertisement_le.
  - apply handle_advertisement_le.
  - apply publish_status_le.
  - apply on_publisher_le. intros p. simpl. lia.
  - apply on_publisher_le. intros p. simpl. lia.
  - apply on_publisher_le. intros p.
    pose proof (publish_advertisement_counters p advertisement resp). lia.
  - apply on_publisher_le. intros p.
    pose proof (publish_status_state p sd resp) as (? & ? & _). lia.
  - apply on_publisher_le. intros p. unfold MQTT._on_connect.
    destruct (decide _); simpl; lia.
  - apply on_publisher_le. intros p. simpl. lia.
  - apply on_publisher_le. intros p. simpl. lia.
Qed.

(** With the blocklist off, or the address not on it, a detection reaches
    the publisher exactly once. *)
Lemma handle_advertisement_forwards (self : ScannerApp)
    (p : MQTT.MQTTPublisher) (ad : BLE.Advertisement)
    (resp : MQTT.send_response) :
  mqtt_publisher self = Some p →
  blocklist_enabled (blocklist (config self))
    && bool_decide (BLE.device_address ad
                      ∈ blocklist_devices (blocklist (config self))) = false →
  (_handle_advertisement self ad resp).1 = [CallPublishAdvertisement ad].
Proof.
  intros Hp Hb. unfold _handle_advertisement. rewrite Hb.
  cbn [mqtt_publisher]. rewrite Hp.
  by destruct (MQTT.publish_advertisement p ad resp).
Qed.

End AppFacts.

(** C7.  Along any sequence of operations of the orchestrator and its
    publisher (detections, publishes with any outcome, status publishes,
    connect, disconnect and reconnect notifications, delivery confirmations,
    shutdown) the counters never go down: [_messages_sent],
    [_messages_failed], the size of [_devices_seen] and the orchestrator's
    [_messages_published] are each at least what they were. *)
Theorem counters_monotone (self : App.ScannerApp) (ops : list App.op) :
  App.messages_sent self ≤ App.messages_sent (App.run_ops self ops)
  ∧ App.messages_failed self ≤ App.messages_failed (App.run_ops self ops)
  ∧ App.devices_seen self ≤ App.devices_seen (App.run_ops self ops)
  ∧ App._messages_published self
    ≤ App._messages_published (App.run_ops self ops).
Proof.
  change (App.counters_le self (App.run_ops self ops)).
  revert self. induction ops as [|o ops IH]; intros self.
  - apply counters_le_refl.
  - cbn [App.run_ops foldl].
    eapply counters_le_trans; [apply (apply_op_le self o)|apply IH].
Qed.

(** C8 as stated fails: an address on the blocklist is still forwarded when
    the blocklist is not enabled ([BlocklistConfig.enabled] is false, its
    default). *)
Lemma blocklist_listed_but_disabled_is_forwarded :
  ¬ (∀ (self : App.ScannerApp) (ad : BLE.Advertisement)
       (resp : MQTT.send_response),
       BLE.device_address ad
         ∈ App.blocklist_devices (App.blocklist (App.config self)) →
       App.publish_advertisement_calls
         (App._handle_advertisement self ad resp).1 = []).
Proof.
  intros H.
  pose (cfg :=
    {| App.scanner := {| App.id := "s1"; App.bluetooth_adapter := "hci0" |};
       App.mqtt := {| App.mqtt_topic_prefix := "bt-mqtt"; App.mqtt_qos := 1 |};
       App.deduplication := {| App.dedup_enabled := false;
                               App.dedup_interval_seconds := 30 |};
       App.blocklist := {| App.blocklist_enabled := false;
                           App.blocklist_devices := ["AA:BB:CC:DD:EE:FF"] |};
       App.heartbeat := {| App.heartbeat_enabled := true;
                           App.heartbeat_interval_seconds := 60 |} |}).
  pose (app := App.apply_op (App.make_publisher (App.init cfg 0))
                 (App.OpClientOnConnect 2 0)).
  pose (ad := BLE.make_advertisement "s1" "2024-01-01T00:00:00+00:00"
                {| BLE.address := "aa:bb:cc:dd:ee:ff" |}
                {| BLE.adv_local_name := None; BLE.adv_rssi := -60;
                   BLE.adv_manufacturer_data := ∅; BLE.adv_service_data := ∅;
                   BLE.adv_service_uuids := [] |}).
  specialize (H app ad (MQTT.SendRc 0)).
  assert (BLE.device_address ad
            ∈ App.blocklist_devices (App.blocklist (App.config app))) as Hin
    by (vm_compute; left).
  specialize (H Hin). vm_compute in H. discriminate H.
Qed.

(** C8, amended.  If the blocklist is enabled and holds the advertisement's
    address, the orchestrator's handler makes no call on the publisher: the
    publisher and the published count are as before, whatever the rest of
    the state (deduplication settings included); the address is still
    recorded as seen.  The same holds for the detection path as a whole. *)
Theorem blocklist_enabled_blocks
    (self : App.ScannerApp) (ad : BLE.Advertisement)
    (resp : MQTT.send_response) :
  App.blocklist_enabled (App.blocklist (App.config self)) = true →
  BLE.device_address ad
    ∈ App.blocklist_devices (App.blocklist (App.config self)) →
  (App._handle_advertisement self ad resp).1 = []
  ∧ App.mqtt_publisher (App._handle_advertisement self ad resp).2
    = App.mqtt_publisher self
  ∧ App._messages_published (App._handle_advertisement self ad resp).2
    = App._messages_published self
  ∧ BLE.device_address ad
      ∈ App._devices_seen (App._handle_advertisement self ad resp).2
  ∧ (∀ (now_iso : string) (device : BLE.BLEDevice)
       (adv : BLE.AdvertisementData),
       BLE.make_advertisement (App.id (App.scanner (App.config self)))
         now_iso device adv = ad →
       (App.detect self now_iso device adv resp).1 = []).
Proof.
  intros Hen Hin.
  assert (App._handle_advertisement self ad resp
          = ([], {| App.config := App.config self;
                    App.mqtt_publisher := App.mqtt_publisher self;
                    App._start_time := App._start_time self;
                    App._devices_seen :=
                      {[BLE.device_address ad]} ∪ App._devices_seen self;
                    App._messages_published := App._messages_published self |}))
    as Heq.
  { unfold App._handle_advertisement. rewrite Hen.
    by rewrite bool_decide_eq_true_2. }
  rewrite Heq. cbn [fst snd App.mqtt_publisher App._messages_published
                    App._devices_seen].
  split; [done|split; [done|split; [done|split; [set_solver|]]]].
  intros now_iso device adv <-. rewrite detect_eq. by rewrite Heq.
Qed.

(** C8, amended, at work: the same address and publisher as in the failing
    case, with the blocklist enabled. *)
Lemma blocklist_enabled_blocks_witness :
  let cfg :=
    {| App.scanner := {| App.id := "s1"; App.bluetooth_adapter := "hci0" |};
       App.mqtt := {| App.mqtt_topic_prefix := "bt-mqtt"; App.mqtt_qos := 1 |};
       App.deduplication := {| App.dedup_enabled := false;
                               App.dedup_interval_seconds := 30 |};
       App.blocklist := {| App.blocklist_enabled := true;
                           App.blocklist_devices := ["AA:BB:CC:DD:EE:FF"] |};
       App.heartbeat := {| App.heartbeat_enabled := true;
                           App.heartbeat_interval_seconds := 60 |} |} in
  let app := App.apply_op (App.make_publisher (App.init cfg 0))
               (App.OpClientOnConnect 2 0) in
  let ad := BLE.make_advertisement "s1" "2024-01-01T00:00:00+00:00"
              {| BLE.address := "aa:bb:cc:dd:ee:ff" |}
              {| BLE.adv_local_name := None; BLE.adv_rssi := -60;
                 BLE.adv_manufacturer_data := ∅; BLE.adv_service_data := ∅;
                 BLE.adv_service_uuids := [] |} in
  (App._handle_advertisement app ad (MQTT.SendRc 0)).1 = [].
Proof.
  intros cfg app ad.
  refine (proj1 (blocklist_enabled_blocks app ad (MQTT.SendRc 0) eq_refl _)).
  vm_compute. left.
Defined.

Section PipelineFacts.
Import App.

(** With a publisher in place and the blocklist off, every detection is
    handed to the publisher, whatever [config.deduplication] says: the
    handler never consults it. *)
Lemma detect_all_forwards_all
    (ds : list (string * BLE.BLEDevice * BLE.AdvertisementData
                * MQTT.send_response)) :
  ∀ self : ScannerApp,
    is_Some (mqtt_publisher self) →
    blocklist_enabled (blocklist (config self)) = false →
    length (publish_advertisement_calls (detect_all self ds).1) = length ds.
Proof.
  induction ds as [|[[[now_iso device] adv] resp] ds IH]; intros self [p Hp] Hb;
    [done|].
  cbn [detect_all]. rewrite detect_eq.
  pose proof (handle_advertisement_forwards self p
                (BLE.make_advertisement (id (scanner (config self)))
                   now_iso device adv) resp Hp) as Hfw.
  rewrite Hb in Hfw. specialize (Hfw eq_refl).
  assert (is_Some (mqtt_publisher
                     (_handle_advertisement self
                        (BLE.make_advertisement (id (scanner (config self)))
                           now_iso device adv) resp).2)
          ∧ config (_handle_advertisement self
                      (BLE.make_advertisement (id (scanner (config self)))
                         now_iso device adv) resp).2 = config self) as [Hp' Hc].
  { unfold _handle_advertisement. rewrite Hb. cbn [andb mqtt_publisher].
    rewrite Hp. destruct (MQTT.publish_advertisement p _ resp) as [c p'].
    destruct c as [[|]|]; simpl; eauto. }
  destruct (_handle_advertisement self _ resp) as [calls self1].
  cbn [fst snd] in *. subst calls.
  specialize (IH self1 Hp'). rewrite Hc in IH. specialize (IH Hb).
  destruct (detect_all self1 ds) as [calls' self2]. cbn [fst snd] in *.
  unfold publish_advertisement_calls in *.
  by rewrite bind_app, length_app, IH.
Qed.

End PipelineFacts.

(** C1, evaluated on the code.  Deduplication enabled with a 30 second
    interval, blocklist off, publisher connected, and the same device
    detected at t = 0, 10 and 35: the pipeline calls the publisher for each
    of the detections (two calls after the first two, three after all
    three), and each call reaches the transport.  The [Deduplicator] fed the
    same three sightings answers publish, drop, publish; the orchestrator
    never asks it. *)
Theorem pipeline_publishes_duplicates_within_interval :
  let cfg :=
    {| App.scanner := {| App.id := "s1"; App.bluetooth_adapter := "hci0" |};
       App.mqtt := {| App.mqtt_topic_prefix := "bt-mqtt"; App.mqtt_qos := 1 |};
       App.deduplication := {| App.dedup_enabled := true;
                               App.dedup_interval_seconds := 30 |};
       App.blocklist := {| App.blocklist_enabled := false;
                           App.blocklist_devices := [] |};
       App.heartbeat := {| App.heartbeat_enabled := true;
                           App.heartbeat_interval_seconds := 60 |} |} in
  let app := App.apply_op (App.make_publisher (App.init cfg 0))
               (App.OpClientOnConnect 0 0) in
  let sighting (now_iso : string) :=
    (now_iso, {| BLE.address := "AA:BB:CC:DD:EE:FF" |},
     {| BLE.adv_local_name := None; BLE.adv_rssi := -60;
        BLE.adv_manufacturer_data := ∅; BLE.adv_service_data := ∅;
        BLE.adv_service_uuids := [] |}, MQTT.SendRc 0) in
  let t0 := sighting "1970-01-01T00:00:00+00:00" in
  let t10 := sighting "1970-01-01T00:00:10+00:00" in
  let t35 := sighting "1970-01-01T00:00:35+00:00" in
  BLE.device_address <$>
    App.publish_advertisement_calls (App.detect_all app [t0; t10]).1
  = ["AA:BB:CC:DD:EE:FF"; "AA:BB:CC:DD:EE:FF"]
  ∧ length (App.publish_advertisement_calls
              (App.detect_all app [t0; t10; t35]).1) = 3
  ∧ from_option (λ p, length (MQTT._client_calls p)) 0
      (App.mqtt_publisher (App.detect_all app [t0; t10]).2) = 2
  ∧ App._messages_published (App.detect_all app [t0; t10]).2 = 2
  ∧ (Dedup.run_calls (Dedup.init 30)
       [(0%Q, "AA:BB:CC:DD:EE:FF"); (10%Q, "AA:BB:CC:DD:EE:FF");
        (35%Q, "AA:BB:CC:DD:EE:FF")]).1 = [true; false; true].
Proof. vm_compute. repeat split. Qed.

(** C10.  Whatever is detected, the [Advertisement] built by the detection
    handler has [raw_data] equal to the empty string, the base64 text of
    zero bytes; it is what the registered callback receives, and what every
    call on the publisher made by the detection path carries. *)
Theorem raw_data_is_empty_placeholder
    (scanner_id now_iso : string) (device : BLE.BLEDevice)
    (adv : BLE.AdvertisementData) :
  BLE.raw_data (BLE.make_advertisement scanner_id now_iso device adv) = ""
  ∧ BLE.b64encode [] = ""
  ∧ (∀ (S : Type) (cb : BLE.Advertisement → S → S) (s : S),
       ∃ ad : BLE.Advertisement,
         BLE._handle_advertisement scanner_id (Some cb) now_iso device adv s
         = cb ad s
         ∧ BLE.raw_data ad = "")
  ∧ (∀ (app : App.ScannerApp) (resp : MQTT.send_response),
       Forall (λ ad, BLE.raw_data ad = "")
         (App.publish_advertisement_calls
            (App.detect app now_iso device adv resp).1)).
Proof.
  split; [done|split; [done|split]].
  - intros S cb s. eexists. split; [reflexivity|done].
  - intros app resp. rewrite detect_eq. unfold App._handle_advertisement.
    destruct (_ && _); [constructor|].
    cbn [App.mqtt_publisher].
    destruct (App.mqtt_publisher app) as [p|]; [|constructor].
    destruct (MQTT.publish_advertisement p _ resp) as [c p'].
    cbn. by repeat constructor.
Qed.

(** C6 at work: two entries, recorded at 0.0 and at the float 0.1; a sweep
    at the float 60.1 with [max_age = 60] deletes the first (computed age
    60.1) and keeps the second, whose computed age is 60.0 although the two
    floats are a little more than 60 apart; the deleted address publishes
    again. *)
Lemma dedup_clear_old_entries_witness :
  let t1 := (3602879701896397 # 36028797018963968)%Q in
  let now := (8458323050155213 # 140737488355328)%Q in
  let d := (Dedup64.run_calls (Dedup.init 1)
              [(0%Q, "AA:BB:CC:DD:EE:FF"); (t1, "11:22:33:44:55:66")]).2 in
  let d' := (Dedup64.clear_old_entries d now 60).2 in
  Dedup._last_seen d' !! "AA:BB:CC:DD:EE:FF" = None
  ∧ (60 < now - t1)%Q
  ∧ Dedup._last_seen d' !! "11:22:33:44:55:66" = Some t1
  ∧ (Dedup64.clear_old_entries d now 60).1 + size (Dedup._last_seen d')
    = size (Dedup._last_seen d)
  ∧ (Dedup64.should_publish d' now "AA:BB:CC:DD:EE:FF").1 = true.
Proof.
  intros t1 now d d'.
  destruct (dedup_clear_old_entries d now 60)
    as (Hgone & Hkeep & _ & Hcount & _ & Hnext).
  assert (Dedup._last_seen d !! "AA:BB:CC:DD:EE:FF" = Some 0%Q) as H0
    by (vm_compute; reflexivity).
  assert (Dedup._last_seen d !! "11:22:33:44:55:66" = Some t1) as H1
    by (vm_compute; reflexivity).
  assert (inject_Z 60 < Float64.sub now 0)%Q as Hold
    by (vm_compute; reflexivity).
  assert (Float64.sub now t1 <= inject_Z 60)%Q as Hyoung
    by (vm_compute; discriminate).
  assert (60 < now - t1)%Q as Hexact by (vm_compute; reflexivity).
  exact (conj (Hgone _ _ H0 Hold)
           (conj Hexact
              (conj (Hkeep _ _ H1 Hyoung)
                 (conj Hcount (proj1 (Hnext _ _ now H0 Hold)))))).
Defined.

(** Float subtraction on known values: [0.3 - 0.1] is
    [0.19999999999999998]; above [2 ** 53] the result is rounded to the
    nearest float, a tie going to the even significand; the smallest
    subnormals are subtracted exactly; whole numbers below [2 ** 53] are
    subtracted exactly. *)
Example float64_sub_examples :
  Float64.sub (5404319552844595 # 18014398509481984)
              (3602879701896397 # 36028797018963968)
  = (7205759403792793 # 36028797018963968)%Q
  ∧ Float64.sub 9007199254740996 1 = 9007199254740996%Q
  ∧ Float64.sub 9007199254740992 (-1) = 9007199254740992%Q
  ∧ Float64.sub (Float64.pow2 (-1074)) (3 * Float64.pow2 (-1074))
    = Qred (- (2 * Float64.pow2 (-1074)))
  ∧ Float64.sub 35 10 = 25%Q
  ∧ Float64.sub 10 35 = (-25)%Q
  ∧ Float64.sub 7 7 = 0%Q.
Proof. vm_compute. repeat split. Qed.

(** The text helpers on known values. *)
Example text_helpers_examples :
  BLE.b64encode [Byte.x4d; Byte.x61; Byte.x6e] = "TWFu"
  ∧ BLE.b64encode [Byte.x4d; Byte.x61] = "TWE="
  ∧ BLE.b64encode [Byte.x4d] = "TQ=="
  ∧ BLE.format_company_id 76 = "0x004c"
  ∧ BLE.format_company_id 70000 = "0x11170"
  ∧ BLE.upper "aa:bb:0c:Dd" = "AA:BB:0C:DD"
  ∧ BLE.classify "org.bluez.Error.NotReady: Resource Not Ready"
    = BLE.AdapterNotReady
  ∧ BLE.classify "[Errno 13] Permission denied" = BLE.PermissionDenied
  ∧ BLE.classify "" = BLE.OtherError.
Proof. vm_compute. repeat split. Qed.


(* ===================================================================== *)
(** * Further properties of the recency table                             *)
(* ===================================================================== *)

Section DedupMore.
Import Dedup.

(** Two tables that hold the same interval and the same entry for [a]. *)
Lemma should_publish_agree (d1 d2 : Deduplicator) (now : Q) (a : string) :
  interval_seconds d1 = interval_seconds d2 →
  _last_seen d1 !! a = _last_seen d2 !! a →
  (should_publish d1 now a).1 = (should_publish d2 now a).1
  ∧ _last_seen (should_publish d1 now a).2 !! a
    = _last_seen (should_publish d2 now a).2 !! a.
Proof.
  intros Hi Hl. rewrite !should_publish_lookup.
  unfold should_publish. rewrite Hl, Hi.
  destruct (_last_seen d2 !! a) as [t|] eqn:E; [|done].
  cbn zeta. by destruct (ge_interval _ _).
Qed.

Lemma run_calls_for (a : string) (calls : list (Q * string)) :
  ∀ d1 d2 : Deduplicator,
    interval_seconds d1 = interval_seconds d2 →
    _last_seen d1 !! a = _last_seen d2 !! a →
    results_for a calls (run_calls d1 calls).1
    = (run_calls d2 (calls_for a calls)).1
    ∧ _last_seen (run_calls d1 calls).2 !! a
      = _last_seen (run_calls d2 (calls_for a calls)).2 !! a.
Proof.
  induction calls as [|[now a'] rest IH]; intros d1 d2 Hi Hl; [done|].
  rewrite run_calls_cons. cbn [fst snd results_for].
  unfold calls_for. rewrite filter_cons. cbn [snd].
  destruct (decide (a' = a)) as [->|Hne].
  - rewrite bool_decide_eq_true_2 by done.
    rewrite run_calls_cons. cbn [fst snd].
    destruct (should_publish_agree d1 d2 now a Hi Hl) as [Hb Hl'].
    destruct (IH (should_publish d1 now a).2 (should_publish d2 now a).2)
      as [Hr Hf]; [by rewrite !should_publish_interval|done|].
    fold (calls_for a rest). by rewrite Hb, Hr, Hf.
  - rewrite bool_decide_eq_false_2 by done.
    apply IH; [by rewrite should_publish_interval|].
    rewrite should_publish_lookup.
    rewrite bool_decide_eq_false_2 by done. by rewrite andb_false_r.
Qed.

Lemma should_publish_dom (d : Deduplicator) (now : Q) (a : string) :
  dom (_last_seen (should_publish d now a).2) = {[a]} ∪ dom (_last_seen d).
Proof.
  unfold should_publish.
  destruct (_last_seen d !! a) as [t|] eqn:E; cbn zeta.
  - assert (a ∈ dom (_last_seen d)) by (apply elem_of_dom; eauto).
    destruct (ge_interval _ _); cbn [snd _last_seen].
    + rewrite dom_insert_L. done.
    + apply set_eq. intros x. rewrite elem_of_union, elem_of_singleton.
      split; [by right|]. by intros [->|?].
  - cbn [snd _last_seen]. by rewrite dom_insert_L.
Qed.

Lemma run_calls_dom (calls : list (Q * string)) :
  ∀ d : Deduplicator,
    dom (_last_seen (run_calls d calls).2)
    = list_to_set calls.*2 ∪ dom (_last_seen d).
Proof.
  induction calls as [|[now a] rest IH]; intros d.
  - cbn. by rewrite (left_id_L ∅ (∪)).
  - rewrite run_calls_cons. cbn [snd]. rewrite IH, should_publish_dom.
    rewrite fmap_cons. cbn [snd list_to_set].
    rewrite (assoc_L (∪)). f_equal. apply (comm_L (∪)).
Qed.

Lemma clear_old_entries_lookup (d : Deduplicator) (now : Q) (max_age : Z)
    (a : string) :
  _last_seen (clear_old_entries d now max_age).2 !! a
  = match _last_seen d !! a with
    | Some t => if older_than now t max_age then None else Some t
    | None => None
    end.
Proof.
  unfold clear_old_entries. cbn [snd _last_seen].
  rewrite lookup_foldl_delete.
  destruct (decide (a ∈ old_keys d now max_age)) as [Hin|Hnin].
  - apply elem_of_old_keys in Hin as (t & -> & ->). done.
  - destruct (_last_seen d !! a) as [t|] eqn:E; [|done].
    destruct (older_than now t max_age) eqn:Ho; [|done].
    exfalso. apply Hnin, elem_of_old_keys. eauto.
Qed.

Lemma swept_view_clear (d : Deduplicator) (now : Q) (max_age : Z) :
  swept_view now max_age (clear_old_entries d now max_age).2 d.
Proof.
  split; [done|]. intros a. rewrite clear_old_entries_lookup.
  destruct (_last_seen d !! a) as [t|] eqn:E; [|by left].
  destruct (older_than now t max_age) eqn:Ho; [|by left].
  right. split; [done|]. exists t. split; [done|]. by apply older_than_true.
Qed.

Lemma swept_view_should_publish (now : Q) (max_age : Z)
    (d1 d2 : Deduplicator) (now' : Q) (a : string) :
  (interval_seconds d2 <= max_age)%Z → (now <= now')%Q →
  swept_view now max_age d1 d2 →
  (should_publish d1 now' a).1 = (should_publish d2 now' a).1
  ∧ swept_view now max_age (should_publish d1 now' a).2
                           (should_publish d2 now' a).2.
Proof.
  intros Hmax Hclock [Hi Hv].
  assert ((should_publish d1 now' a).1 = (should_publish d2 now' a).1) as Hb.
  { destruct (Hv a) as [Heq|(Hnone & t & Hsome & Hold)].
    - by apply should_publish_agree.
    - unfold should_publish. rewrite Hnone, Hsome. cbn zeta.
      assert (ge_interval (now' - t) (interval_seconds d2) = true) as ->; [|done].
      apply ge_interval_true. rewrite Zle_Qle in Hmax. lra. }
  split; [done|]. split; [by rewrite !should_publish_interval|].
  intros a0. rewrite !should_publish_lookup, Hb.
  destruct ((should_publish d2 now' a).1 && bool_decide (a = a0)); [by left|].
  apply Hv.
Qed.

Lemma swept_view_run_calls (now : Q) (max_age : Z) (calls : list (Q * string)) :
  ∀ d1 d2 : Deduplicator,
    (interval_seconds d2 <= max_age)%Z →
    Forall (λ c : Q * string, (now <= c.1)%Q) calls →
    swept_view now max_age d1 d2 →
    (run_calls d1 calls).1 = (run_calls d2 calls).1.
Proof.
  induction calls as [|[now' a] rest IH]; intros d1 d2 Hmax Hclock Hv; [done|].
  apply Forall_cons in Hclock as [Hnow Hrest]. cbn [fst] in Hnow.
  rewrite !run_calls_cons. cbn [fst].
  destruct (swept_view_should_publish now max_age d1 d2 now' a Hmax Hnow Hv)
    as [Hb Hv'].
  rewrite Hb. f_equal.
  apply IH; [by rewrite should_publish_interval|done|done].
Qed.

Lemma clear_old_entries_nothing_old (d : Deduplicator) (now : Q) (max_age : Z) :
  (∀ (a : string) (t : Q),
     _last_seen d !! a = Some t → (now - t <= inject_Z max_age)%Q) →
  clear_old_entries d now max_age = (0, d).
Proof.
  intros Hyoung.
  assert (old_keys d now max_age = []) as Hks.
  { apply elem_of_nil_inv. intros a [t [Hl Hold]]%elem_of_old_keys.
    apply older_than_true in Hold. specialize (Hyoung a t Hl).
    by apply (Qlt_not_le _ _ Hold). }
  unfold clear_old_entries. rewrite Hks. cbn. by destruct d.
Qed.

End DedupMore.

(** X1.  The recency table is per address: in any history, from any table,
    the answers given to the calls for [a] are the answers the same table
    gives when only the calls for [a] are made, and the entry left for [a]
    is the same; calls for other addresses change neither. *)
Theorem dedup_per_address_independence
    (d : Dedup.Deduplicator) (a : string) (calls : list (Q * string)) :
  Dedup.results_for a calls (Dedup.run_calls d calls).1
  = (Dedup.run_calls d (Dedup.calls_for a calls)).1
  ∧ Dedup._last_seen (Dedup.run_calls d calls).2 !! a
    = Dedup._last_seen (Dedup.run_calls d (Dedup.calls_for a calls)).2 !! a.
Proof. by apply run_calls_for. Qed.

(** X2.  [get_stats]: after any history of [should_publish] calls on a fresh
    deduplicator the table has one entry per distinct address sighted,
    dropped sightings included, so [unique_devices_seen] is the number of
    distinct addresses. *)
Theorem dedup_stats_count_distinct_addresses
    (interval : Z) (calls : list (Q * string)) :
  Dedup.get_stats (Dedup.run_calls (Dedup.init interval) calls).2
  = size (list_to_set calls.*2 : gset string)
  ∧ dom (Dedup._last_seen (Dedup.run_calls (Dedup.init interval) calls).2)
    = list_to_set calls.*2.
Proof.
  pose proof (run_calls_dom calls (Dedup.init interval)) as Hdom.
  cbn [Dedup.init Dedup._last_seen] in Hdom.
  rewrite dom_empty_L, (right_id_L ∅ (∪)) in Hdom.
  split; [|done]. unfold Dedup.get_stats. by rewrite <- size_dom, Hdom.
Qed.

(** X3.  A sweep whose [max_age] is at least the publish interval does not
    change any later decision: for calls whose clock readings are not before
    the sweep's, the answers after [clear_old_entries] are the answers
    without it. *)
Theorem dedup_sweep_is_transparent
    (d : Dedup.Deduplicator) (now : Q) (max_age : Z)
    (calls : list (Q * string)) :
  (Dedup.interval_seconds d <= max_age)%Z →
  Forall (λ c : Q * string, (now <= c.1)%Q) calls →
  (Dedup.run_calls (Dedup.clear_old_entries d now max_age).2 calls).1
  = (Dedup.run_calls d calls).1.
Proof.
  intros Hmax Hclock.
  apply (swept_view_run_calls now max_age); [done|done|].
  apply swept_view_clear.
Qed.

(** X3 at work: interval 30, sweep at time 100 with [max_age = 60] of a
    table holding readings 0 and 90; two later calls. *)
Lemma dedup_sweep_is_transparent_witness :
  let d := (Dedup.run_calls (Dedup.init 30)
              [(0%Q, "AA:BB:CC:DD:EE:FF"); (90%Q, "11:22:33:44:55:66")]).2 in
  let later := [(100%Q, "AA:BB:CC:DD:EE:FF"); (110%Q, "11:22:33:44:55:66")] in
  (Dedup.run_calls (Dedup.clear_old_entries d 100 60).2 later).1
  = (Dedup.run_calls d later).1.
Proof.
  intros d later.
  apply (dedup_sweep_is_transparent d 100 60 later).
  - vm_compute. discriminate.
  - repeat constructor; vm_compute; discriminate.
Defined.

(** X4.  A sweep that finds no entry older than [max_age] returns 0 and
    leaves the table as it is; in particular a second sweep with the same
    clock reading and [max_age] does nothing. *)
Theorem dedup_sweep_idempotent
    (d : Dedup.Deduplicator) (now : Q) (max_age : Z) :
  ((∀ (a : string) (t : Q),
      Dedup._last_seen d !! a = Some t → (now - t <= inject_Z max_age)%Q) →
   Dedup.clear_old_entries d now max_age = (0, d))
  ∧ Dedup.clear_old_entries (Dedup.clear_old_entries d now max_age).2
      now max_age
    = (0, (Dedup.clear_old_entries d now max_age).2).
Proof.
  split; [apply clear_old_entries_nothing_old|].
  apply clear_old_entries_nothing_old. intros a t.
  rewrite clear_old_entries_lookup.
  destruct (Dedup._last_seen d !! a) as [t'|]; [|done].
  destruct (Dedup.older_than now t' max_age) eqn:Ho; [done|].
  intros [= <-]. by apply older_than_false.
Qed.

(** X4 at work: one entry of age 10 swept with [max_age = 60]. *)
Lemma dedup_sweep_idempotent_witness :
  let d := {| Dedup.interval_seconds := 30;
              Dedup._last_seen := {[ "AA:BB:CC:DD:EE:FF" := 90%Q ]} |} in
  Dedup.clear_old_entries d 100 60 = (0, d).
Proof.
  intros d.
  apply (proj1 (dedup_sweep_idempotent d 100 60)).
  intros a t Hl. unfold d in Hl. cbn [Dedup._last_seen] in Hl.
  apply lookup_singleton_Some in Hl as [_ <-].
  vm_compute. discriminate.
Defined.

(* ===================================================================== *)
(** * Further properties of the normaliser                                *)
(* ===================================================================== *)

Section NormaliserFacts.
Import BLE.

Lemma b64encode_length_lt (n : nat) :
  ∀ bs : list Byte.byte,
    length bs < n →
    String.length (b64encode bs) = 4 * ((length bs + 2) / 3).
Proof.
  induction n as [|n IH]; intros bs Hlen; [lia|].
  destruct bs as [|a [|b [|c rest]]]; [reflexivity|reflexivity|reflexivity|].
  cbn [b64encode String.length length] in *.
  rewrite IH by lia.
  replace (S (S (S (length rest))) + 2) with (length rest + 2 + 1 * 3) by lia.
  rewrite Nat.div_add by lia. lia.
Qed.

Lemma b64_char_is_text (sextet : N) : is_b64_text_char (b64_char sextet) = true.
Proof.
  unfold b64_char.
  assert (N.to_nat (N.land sextet 63) < 64) as Hlt.
  { change 63%N with (N.ones 6). rewrite N.land_ones.
    pose proof (N.mod_lt sextet (2 ^ 6)%N ltac:(done)) as H.
    change (2 ^ 6)%N with 64%N in *. lia. }
  generalize dependent (N.to_nat (N.land sextet 63)). intros i Hlt.
  do 64 (destruct i as [|i]; [vm_compute; reflexivity|]). lia.
Qed.

Lemma b64encode_text_lt (n : nat) :
  ∀ bs : list Byte.byte,
    length bs < n → string_forallb is_b64_text_char (b64encode bs) = true.
Proof.
  induction n as [|n IH]; intros bs Hlen; [lia|].
  destruct bs as [|a [|b [|c rest]]]; cbn [b64encode string_forallb length] in *.
  - done.
  - by rewrite !b64_char_is_text.
  - by rewrite !b64_char_is_text.
  - rewrite !b64_char_is_text. cbn [andb]. apply IH. lia.
Qed.

Lemma concat_zeros_S (k : nat) :
  String.concat "" (replicate (S k) "0")
  = String "0" (String.concat "" (replicate k "0")).
Proof. by destruct k. Qed.

Lemma uint_of_string_zero_pad (k : nat) (digits : string) :
  N.of_hex_uint <$> HexadecimalString.NilEmpty.uint_of_string
                      (String.concat "" (replicate k "0") +:+ digits)
  = N.of_hex_uint <$> HexadecimalString.NilEmpty.uint_of_string digits.
Proof.
  induction k as [|k IH]; [done|].
  rewrite concat_zeros_S.
  change (String "0" ?s +:+ digits) with (String "0" (s +:+ digits)).
  cbn [HexadecimalString.NilEmpty.uint_of_string].
  destruct (HexadecimalString.NilEmpty.uint_of_string
              (String.concat "" (replicate k "0") +:+ digits)) as [d|];
    destruct (HexadecimalString.NilEmpty.uint_of_string digits) as [d'|];
    simpl in *; congruence.
Qed.

(** Reading a formatted identifier back gives the identifier. *)
Lemma parse_format_company_id (company_id : N) :
  parse_company_id (format_company_id company_id) = Some company_id.
Proof.
  unfold format_company_id, zero_pad.
  change ("0x" +:+ ?s) with (String "0" (String "x" s)).
  cbn [parse_company_id]. rewrite uint_of_string_zero_pad.
  unfold HexadecimalString.NilZero.string_of_uint.
  destruct (N.to_hex_uint company_id) eqn:E;
    try (rewrite <- E, HexadecimalString.NilEmpty.usu; cbn;
         by rewrite HexadecimalN.Unsigned.of_to).
  cbn. f_equal. rewrite <- (HexadecimalN.Unsigned.of_to company_id), E. done.
Qed.

Lemma format_company_id_inj : Inj (=) (=) format_company_id.
Proof.
  intros k1 k2 Heq.
  assert (Some k1 = Some k2) as [= ->]; [|done].
  by rewrite <- !parse_format_company_id, Heq.
Qed.

Lemma upper_char_not_lower (c : ascii) : is_lower (upper_char c) = false.
Proof. destruct c as [[] [] [] [] [] [] [] []]; reflexivity. Qed.

Lemma upper_not_lower (s : string) : has_lower (upper s) = false.
Proof.
  induction s as [|c s IH]; [done|].
  cbn [upper has_lower]. by rewrite upper_char_not_lower, IH.
Qed.

Lemma upper_char_fixes_non_lower (c : ascii) :
  is_lower c = false → upper_char c = c.
Proof. unfold upper_char, is_lower. by intros ->. Qed.

Lemma upper_fixes_non_lower (s : string) :
  has_lower s = false → upper s = s.
Proof.
  induction s as [|c s IH]; [done|].
  cbn [upper has_lower]. intros [Hc Hs]%orb_false_iff.
  by rewrite upper_char_fixes_non_lower, IH.
Qed.

End NormaliserFacts.

(** X5.  [base64.b64encode]: the text for [n] bytes has [4 * ceil(n / 3)]
    characters, each one from the base64 alphabet or the padding sign. *)
Theorem b64encode_length_and_alphabet (bs : list Byte.byte) :
  String.length (BLE.b64encode bs) = 4 * ((length bs + 2) / 3)
  ∧ BLE.string_forallb BLE.is_b64_text_char (BLE.b64encode bs) = true.
Proof.
  split.
  - apply (b64encode_length_lt (S (length bs))). lia.
  - apply (b64encode_text_lt (S (length bs))). lia.
Qed.

(** X6.  The normaliser keeps every vendor and service entry: the
    [manufacturer_data] of the advertisement holds, under [0x] and the
    identifier in hexadecimal, the base64 text of the payload detected for
    that identifier, and nothing else (distinct identifiers give distinct
    keys, so no entry is lost); [service_data] holds the base64 text of each
    payload under the same key. *)
Theorem normaliser_keeps_entries
    (scanner_id now_iso : string) (device : BLE.BLEDevice)
    (adv : BLE.AdvertisementData) :
  let ad := BLE.make_advertisement scanner_id now_iso device adv in
  (∀ k : N,
     BLE.manufacturer_data ad !! BLE.format_company_id k
     = BLE.b64encode <$> BLE.adv_manufacturer_data adv !! k)
  ∧ (∀ (key text : string),
       BLE.manufacturer_data ad !! key = Some text →
       ∃ k : N, key = BLE.format_company_id k)
  ∧ size (BLE.manufacturer_data ad) = size (BLE.adv_manufacturer_data adv)
  ∧ (∀ k1 k2 : N,
       BLE.format_company_id k1 = BLE.format_company_id k2 → k1 = k2)
  ∧ (∀ uuid : string,
       BLE.service_data ad !! uuid
       = BLE.b64encode <$> BLE.adv_service_data adv !! uuid).
Proof.
  intros ad. cbn [ad BLE.make_advertisement BLE.manufacturer_data BLE.service_data].
  pose proof format_company_id_inj as Hinj.
  set (m := BLE.adv_manufacturer_data adv).
  set (l := (λ kv : N * list Byte.byte,
               (BLE.format_company_id kv.1, BLE.b64encode kv.2))
            <$> map_to_list m).
  assert (NoDup l.*1) as Hnd.
  { assert (l.*1 = BLE.format_company_id <$> (map_to_list m).*1) as ->
      by (unfold l; by rewrite <- !list_fmap_compose).
    apply (NoDup_fmap_2 _). apply NoDup_fst_map_to_list. }
  split; [|split; [|split; [|split]]].
  - intros k. destruct (m !! k) as [v|] eqn:E; cbn [fmap option_fmap option_map].
    + apply elem_of_list_to_map_1; [done|].
      unfold l. apply list_elem_of_fmap. exists (k, v).
      split; [done|]. by apply elem_of_map_to_list.
    + apply not_elem_of_list_to_map_1.
      unfold l. rewrite <- list_fmap_compose.
      intros [[k' v'] [Hk Hin]]%list_elem_of_fmap. cbn in Hk.
      apply (inj BLE.format_company_id) in Hk as <-.
      apply elem_of_map_to_list in Hin. congruence.
  - intros key text Hl.
    apply elem_of_list_to_map_2 in Hl.
    unfold l in Hl. apply list_elem_of_fmap in Hl as [[k v] [[= -> ->] _]].
    by exists k.
  - rewrite map_size_list_to_map by done.
    unfold l. by rewrite length_fmap, length_map_to_list.
  - intros k1 k2. apply (inj BLE.format_company_id).
  - intros uuid. apply lookup_fmap.
Qed.

(** X7.  Addresses reach the filter in upper case: the advertisement's
    [device_address] has no lower-case ASCII letter (and an ASCII address
    without one is kept as it is).  The blocklist test being an exact match,
    entries written with a lower-case ASCII letter never block anything:
    with a publisher in place the detection is forwarded even though the
    blocklist is enabled. *)
Theorem blocklist_match_is_case_sensitive
    (app : App.ScannerApp) (p : MQTT.MQTTPublisher) (now_iso : string)
    (device : BLE.BLEDevice) (adv : BLE.AdvertisementData)
    (resp : MQTT.send_response) :
  let ad := BLE.make_advertisement (App.id (App.scanner (App.config app)))
              now_iso device adv in
  App.mqtt_publisher app = Some p →
  Forall (λ entry, BLE.has_lower entry = true)
         (App.blocklist_devices (App.blocklist (App.config app))) →
  BLE.has_lower (BLE.device_address ad) = false
  ∧ (BLE.is_ascii (BLE.address device) = true →
     BLE.has_lower (BLE.address device) = false →
     BLE.device_address ad = BLE.address device)
  ∧ (App.detect app now_iso device adv resp).1
    = [App.CallPublishAdvertisement ad].
Proof.
  intros ad Hp Hentries.
  assert (BLE.has_lower (BLE.device_address ad) = false) as Hup
    by apply upper_not_lower.
  split; [done|]. split; [intros _; apply upper_fixes_non_lower|].
  rewrite detect_eq. apply (handle_advertisement_forwards app p); [done|].
  rewrite bool_decide_eq_false_2; [by rewrite andb_false_r|].
  intros Hin. rewrite Forall_forall in Hentries.
  specialize (Hentries _ Hin). fold ad in Hentries. congruence.
Qed.

(** X7 at work: the blocklist is enabled and lists the device in lower
    case; the detection is published all the same, under the upper-case
    address; an address that is already in upper case is published as it
    is. *)
Lemma blocklist_match_is_case_sensitive_witness :
  let cfg :=
    {| App.scanner := {| App.id := "s1"; App.bluetooth_adapter := "hci0" |};
       App.mqtt := {| App.mqtt_topic_prefix := "bt-mqtt"; App.mqtt_qos := 1 |};
       App.deduplication := {| App.dedup_enabled := false;
                               App.dedup_interval_seconds := 30 |};
       App.blocklist := {| App.blocklist_enabled := true;
                           App.blocklist_devices := ["aa:bb:cc:dd:ee:ff"] |};
       App.heartbeat := {| App.heartbeat_enabled := true;
                           App.heartbeat_interval_seconds := 60 |} |} in
  let app := App.make_publisher (App.init cfg 0) in
  let adv :=
    {| BLE.adv_local_name := None; BLE.adv_rssi := -60;
       BLE.adv_manufacturer_data := ∅; BLE.adv_service_data := ∅;
       BLE.adv_service_uuids := [] |} in
  BLE.device_address <$>
    (App.detect app "2024-01-01T00:00:00+00:00"
       {| BLE.address := "aa:bb:cc:dd:ee:ff" |} adv (MQTT.SendRc 0)).1
      ≫= (λ c, match c with
               | App.CallPublishAdvertisement ad => [ad]
               | _ => []
               end)
  = ["AA:BB:CC:DD:EE:FF"]
  ∧ BLE.device_address
      (BLE.make_advertisement "s1" "2024-01-01T00:00:00+00:00"
         {| BLE.address := "AA:BB:CC:DD:EE:FF" |} adv)
    = "AA:BB:CC:DD:EE:FF".
Proof.
  intros cfg app adv.
  destruct (blocklist_match_is_case_sensitive app (MQTT.init "s1" "bt-mqtt" 1)
              "2024-01-01T00:00:00+00:00"
              {| BLE.address := "aa:bb:cc:dd:ee:ff" |} adv
              (MQTT.SendRc 0) eq_refl)
    as (_ & _ & Hfw); [repeat constructor|].
  destruct (blocklist_match_is_case_sensitive app (MQTT.init "s1" "bt-mqtt" 1)
              "2024-01-01T00:00:00+00:00"
              {| BLE.address := "AA:BB:CC:DD:EE:FF" |} adv
              (MQTT.SendRc 0) eq_refl)
    as (_ & Hkeep & _); [repeat constructor|].
  split; [by rewrite Hfw|exact (Hkeep eq_refl eq_refl)].
Defined.

(* ===================================================================== *)
(** * Further properties of the scan loop                                 *)
(* ===================================================================== *)

Section ScanLoopMore.
Import BLE.

Lemma step_below_cap (st : ScanState) (i : input) :
  below_cap st →
  below_cap (step st i).2 ∧ step_events_bounded (step st i).1.
Proof.
  destruct st as [r h c p]. destruct i as [stop res].
  unfold below_cap, step_events_bounded, max_retries.
  cbn [has_scanner at_pc retry_count _running].
  intros (-> & Hp & Hc).
  destruct p; try congruence;
    destruct stop, r, res as [|[|msg]|];
    unfold step, on_exception, poll_head, loop_head, set_pc, max_retries;
    cbn [stop_requested result at_pc _running has_scanner retry_count];
    repeat match goal with
    | |- context [?a <=? ?b] => destruct (Nat.leb_spec a b)
    end;
    cbn [fst snd has_scanner at_pc retry_count _running sleeps attempt_numbers
         mbind list_bind app];
    (destruct Hc as [?|(? & ? & ?)]; try congruence);
    (split;
     [split; [done|split; [done|]];
      first [left; lia | right; split; [lia|done]]
     |split; repeat (apply Forall_cons; split); try apply Forall_nil; lia]).
Qed.

Lemma run_below_cap (ins : list input) :
  ∀ st : ScanState,
    below_cap st →
    below_cap (run st ins).2 ∧ step_events_bounded (run st ins).1.
Proof.
  induction ins as [|i ins IH]; intros st Hst.
  - split; [done|]. split; constructor.
  - cbn [run]. destruct (step_below_cap st i Hst) as [Hst1 [Hs1 Ha1]].
    destruct (step st i) as [evs st1]. cbn [fst snd] in *.
    destruct (IH st1 Hst1) as [Hst2 [Hs2 Ha2]].
    destruct (run st1 ins) as [evs' st2]. cbn [fst snd] in *.
    split; [done|]. unfold step_events_bounded, sleeps, attempt_numbers in *.
    rewrite !bind_app. split; by apply Forall_app.
Qed.

Lemma run_poll_timeouts (n : nat) :
  run scanning (replicate n poll_timeout) = ([], scanning).
Proof.
  induction n as [|n IH]; [done|].
  change (replicate (S n) poll_timeout)
    with ([poll_timeout] ++ replicate n poll_timeout).
  rewrite run_app.
  change (run scanning [poll_timeout]) with ([] : list event, scanning).
  cbn [fst snd]. by rewrite IH.
Qed.

Lemma run_events_exited (ins : list input) :
  ∀ st : ScanState, at_pc st = Exited →
    (run st ins).1 = [] ∧ at_pc (run st ins).2 = Exited.
Proof.
  induction ins as [|i ins IH]; intros st Hpc; [done|].
  cbn [run].
  assert (step st i = ([], (step st i).2) ∧ at_pc (step st i).2 = Exited)
    as [Hs Hpc'].
  { destruct st as [r h c p]. cbn in Hpc. subst p.
    unfold step. by destruct (stop_requested i). }
  rewrite Hs. destruct (IH _ Hpc') as [He Hp].
  destruct (run _ ins) as [evs st2]. cbn [fst snd] in *. by subst.
Qed.

End ScanLoopMore.

(** X8.  Whatever the environment answers, in any order and for any length
    of time, every back-off sleep of the scan task lasts between 5 and 30
    seconds, every start attempt is numbered between 1 and 10, and the
    failure counter never exceeds 10. *)
Theorem scan_loop_bounds (ins : list BLE.input) :
  Forall (λ w, 5 ≤ w ≤ 30) (BLE.sleeps (BLE.scan_task ins).1)
  ∧ Forall (λ n, 1 ≤ n ≤ 10) (BLE.attempt_numbers (BLE.scan_task ins).1)
  ∧ BLE.retry_count (BLE.scan_task ins).2 ≤ 10.
Proof.
  rewrite scan_task_eq. cbn [fst snd].
  assert (BLE.below_cap
            {| BLE._running := true; BLE.has_scanner := true;
               BLE.retry_count := 0; BLE.at_pc := BLE.AwaitStart |}) as Hinit.
  { split; [done|split; [done|]]. left. unfold BLE.max_retries. cbn. lia. }
  destruct (run_below_cap ins _ Hinit) as [(_ & _ & Hc) [Hs Ha]].
  destruct (BLE.run _ ins) as [evs st']. cbn [fst snd] in *.
  unfold BLE.max_retries in *.
  split; [exact Hs|]. split.
  - change (Forall (λ n, 1 ≤ n ≤ 10) (1 :: BLE.attempt_numbers evs)).
    apply Forall_cons. split; [lia|done].
  - lia.
Qed.

(** X9.  While scanning, the passing of time alone changes nothing: any
    number of liveness-poll timeouts leaves the task scanning, with no event
    and the failure counter at 0.  The task leaves the scanning phase when
    [_running] is found cleared after a timeout, and then asks the backend
    to stop; a cancellation ends it at once, without that request. *)
Theorem scan_loop_scanning_persists (n : nat) :
  BLE.scan_task (BLE.resume BLE.Returned :: replicate n BLE.poll_timeout)
  = ([BLE.EvStartAttempt 1], BLE.scanning)
  ∧ BLE.step BLE.scanning
      {| BLE.stop_requested := true;
         BLE.result := BLE.Raised BLE.TimeoutError |}
    = ([BLE.EvScannerStop],
       {| BLE._running := false; BLE.has_scanner := true;
          BLE.retry_count := 0; BLE.at_pc := BLE.AwaitStop |})
  ∧ (∀ stop : bool,
       BLE.step BLE.scanning
         {| BLE.stop_requested := stop; BLE.result := BLE.Cancelled |}
       = ([], {| BLE._running := negb stop; BLE.has_scanner := true;
                 BLE.retry_count := 0; BLE.at_pc := BLE.Exited |})).
Proof.
  split; [|split].
  - rewrite scan_task_eq.
    change (BLE.resume BLE.Returned :: replicate n BLE.poll_timeout)
      with ([BLE.resume BLE.Returned] ++ replicate n BLE.poll_timeout).
    rewrite run_app.
    change (BLE.run _ [BLE.resume BLE.Returned])
      with ([] : list BLE.event, BLE.scanning).
    cbn [fst snd]. by rewrite run_poll_timeouts.
  - done.
  - by intros [].
Qed.

Lemma scanner_apply_ok (s : BLE.Scanner) (o : BLE.scanner_op) :
  BLE.scanner_ok s = true → BLE.scanner_ok (BLE.scanner_apply s o).2 = true.
Proof.
  destruct s as [[r h c p] t].
  destruct o as [[e|]| |resp|resp];
    destruct t, r, h, p; try discriminate; intros _; try reflexivity;
    unfold BLE.scanner_apply, BLE.scanner_resume, BLE.step, BLE.on_exception;
    cbn [BLE.loop BLE.task BLE.at_pc BLE.result BLE.stop_requested
         BLE._running BLE.has_scanner BLE.retry_count];
    repeat match goal with
           | |- context [match ?x with _ => _ end] =>
               match type of x with
               | BLE.response => destruct x
               | BLE.exn => destruct x
               end
           end;
    try reflexivity;
    destruct (BLE.max_retries <=? c + 1); reflexivity.
Qed.

Lemma scanner_run_cons (s : BLE.Scanner) (o : BLE.scanner_op)
    (rest : list BLE.scanner_op) :
  (BLE.scanner_run s (o :: rest)).2
  = (BLE.scanner_run (BLE.scanner_apply s o).2 rest).2.
Proof.
  cbn [BLE.scanner_run]. destruct (BLE.scanner_apply s o) as [evs s1].
  cbn [snd]. destruct (BLE.scanner_run s1 rest). reflexivity.
Qed.

Lemma scanner_run_ok (ops : list BLE.scanner_op) :
  ∀ s : BLE.Scanner,
    BLE.scanner_ok s = true → BLE.scanner_ok (BLE.scanner_run s ops).2 = true.
Proof.
  induction ops as [|o rest IH]; intros s Hs; [done|].
  rewrite scanner_run_cons. by apply IH, scanner_apply_ok.
Qed.

(** X10.  [stop()] after any history of [start()] and [stop()] calls and of
    turns of the scan task.  The scanner is left not running, its task
    neither waiting nor suspended, and the coroutine never spins.  On a
    running scanner whose task has not ended with an exception, the backend
    is asked to stop exactly once and no start attempt is made, also when
    the backend's stop fails.  On a running scanner whose task has ended
    with an exception (the back-off sleep raised), [stop()] clears
    [_running], re-raises that exception and does not ask the backend to
    stop.  On a scanner that is not running [stop()] does nothing, so a
    second [stop()] does nothing, and an ended task produces no event.
    [start()] on a running scanner does nothing; on a stopped one it makes
    no start attempt itself: a [stop()] straight after it only asks the
    backend to stop, and the first turn of the new task makes attempt 1. *)
Theorem scanner_stop_is_final_and_idempotent
    (ops : list BLE.scanner_op) (resp resp' : BLE.response)
    (ctor : option BLE.exn) (r : BLE.response) :
  let s := (BLE.scanner_run BLE.scanner_init ops).2 in
  let stopped := (BLE.scanner_stop s resp).1.2 in
  let restarted := (BLE.scanner_start stopped None).1 in
  BLE._running (BLE.loop stopped) = false
  ∧ BLE.task stopped ≠ BLE.Scheduled
  ∧ BLE.task stopped ≠ BLE.Running
  ∧ BLE.at_pc (BLE.loop s) ≠ BLE.Spinning
  ∧ (BLE._running (BLE.loop s) = true →
       BLE.scanner_start s ctor = (s, None)
       ∧ match BLE.task s with
         | BLE.Failed e =>
             BLE.scanner_stop s resp
             = ([], {| BLE.loop := BLE.set_running (BLE.loop s) false;
                       BLE.task := BLE.Failed e |}, BLE.StopRaised e)
         | _ =>
             (BLE.scanner_stop s resp).1.1 = [BLE.EvScannerStop]
             ∧ BLE.task stopped = BLE.Ended
             ∧ (BLE.scanner_stop s resp).2
               = match resp with
                 | BLE.Returned => BLE.Stopped
                 | BLE.Raised e => BLE.StoppedWithWarning (BLE.str e)
                 | BLE.Cancelled => BLE.StopInterrupted
                 end
         end)
  ∧ (BLE._running (BLE.loop s) = false →
       BLE.scanner_stop s resp = ([], s, BLE.Stopped))
  ∧ BLE.scanner_stop stopped resp' = ([], stopped, BLE.Stopped)
  ∧ (BLE.scanner_turn stopped).1 = []
  ∧ (BLE.scanner_resume stopped r).1 = []
  ∧ BLE.task restarted = BLE.Scheduled
  ∧ (BLE.scanner_stop restarted resp').1.1 = [BLE.EvScannerStop]
  ∧ (BLE.scanner_turn restarted).1 = [BLE.EvStartAttempt 1].
Proof.
  intros s. assert (BLE.scanner_ok s = true) as Hok
    by (by apply scanner_run_ok).
  clearbody s. intros stopped restarted. subst stopped restarted.
  destruct s as [[run h c p] t].
  destruct t, run, h, p; try discriminate Hok;
    cbn; repeat split; try done; try (by destruct resp);
    try (by destruct resp'); try (by destruct ctor).
Qed.

(** X10 at work.  A first attempt fails and the back-off sleep runs out: a
    [stop()] during the second attempt, the backend failing to stop, asks
    the backend once and ends with a warning.  If instead the back-off
    sleep raises, the task ends with that exception, and [stop()] re-raises
    it without asking the backend to stop. *)
Lemma scanner_stop_is_final_and_idempotent_witness :
  let began := [BLE.OpStart None; BLE.OpTurn;
                BLE.OpResume (BLE.Raised (BLE.Exception "Resource Not Ready"))] in
  let retrying := (BLE.scanner_run BLE.scanner_init
                     (began ++ [BLE.OpResume BLE.Returned])).2 in
  let broken := (BLE.scanner_run BLE.scanner_init
                   (began ++ [BLE.OpResume
                                (BLE.Raised (BLE.Exception "loop closed"))])).2 in
  (BLE.scanner_stop retrying (BLE.Raised (BLE.Exception "busy"))).1.1
  = [BLE.EvScannerStop]
  ∧ (BLE.scanner_stop retrying (BLE.Raised (BLE.Exception "busy"))).2
    = BLE.StoppedWithWarning "busy"
  ∧ BLE._running (BLE.loop broken) = true
  ∧ (BLE.scanner_stop broken BLE.Returned).1.1 = []
  ∧ (BLE.scanner_stop broken BLE.Returned).2
    = BLE.StopRaised (BLE.Exception "loop closed").
Proof.
  intros began retrying broken.
  destruct (scanner_stop_is_final_and_idempotent
              (began ++ [BLE.OpResume BLE.Returned])
              (BLE.Raised (BLE.Exception "busy")) BLE.Returned None
              BLE.Returned)
    as (_ & _ & _ & _ & Hrun & _).
  destruct (Hrun eq_refl) as (_ & Hev & _ & Hres).
  destruct (scanner_stop_is_final_and_idempotent
              (began ++ [BLE.OpResume
                           (BLE.Raised (BLE.Exception "loop closed"))])
              BLE.Returned BLE.Returned None BLE.Returned)
    as (_ & _ & _ & _ & Hrun' & _).
  destruct (Hrun' eq_refl) as (_ & Hraise).
  split; [exact Hev|]. split; [exact Hres|]. split; [reflexivity|].
  fold broken in Hraise. cbv zeta in Hraise.
  change (BLE.task broken) with (BLE.Failed (BLE.Exception "loop closed"))
    in Hraise.
  cbv beta iota in Hraise. by rewrite Hraise.
Defined.

(* ===================================================================== *)
(** * Further properties of the publisher and the orchestrator            *)
(* ===================================================================== *)

Section PublisherMore.
Import App.

Lemma publish_advertisement_frame (o : op) (p : MQTT.MQTTPublisher)
    (ad : BLE.Advertisement) (resp : MQTT.send_response) :
  publisher_frame o p (MQTT.publish_advertisement p ad resp).2.
Proof.
  unfold publisher_frame.
  destruct (MQTT._connected p) eqn:E.
  - rewrite publish_advertisement_connected by done. cbn zeta.
    assert (well_routed p
              {| MQTT.msg_topic :=
                   MQTT.topic_prefix p +:+ "/raw/" +:+ MQTT.scanner_id p;
                 MQTT.msg_payload := MQTT.to_dict ad;
                 MQTT.msg_qos := MQTT.qos p; MQTT.msg_retain := false |})
      by (split; [done|by left]).
    destruct resp as [rc|msg]; [destruct (decide _)|];
      cbn; (repeat split; try done); right; eauto.
  - rewrite publish_advertisement_disconnected by done. cbn.
    repeat split; try done. by left.
Qed.

Lemma publish_status_frame (o : op) (p : MQTT.MQTTPublisher)
    (sd : list (string * MQTT.json)) (resp : MQTT.send_response) :
  publisher_frame o p (MQTT.publish_status p sd resp).2.
Proof.
  unfold publisher_frame, MQTT.publish_status.
  destruct (MQTT._connected p) eqn:E; cbn [negb].
  - assert (well_routed p
              {| MQTT.msg_topic :=
                   MQTT.topic_prefix p +:+ "/scanner/" +:+ MQTT.scanner_id p
                   +:+ "/status";
                 MQTT.msg_payload :=
                   MQTT.JDict ([("version", MQTT.JStr "1.0");
                                ("scanner_id", MQTT.JStr (MQTT.scanner_id p))]
                               ++ sd);
                 MQTT.msg_qos := MQTT.qos p; MQTT.msg_retain := true |})
      by (split; [done|by right]).
    destruct resp as [rc|msg]; cbn [MQTT.client_publish MQTT.try_except];
      [destruct (decide _)|]; cbn; (repeat split; try done); right; eauto.
  - cbn. repeat split; try done. by left.
Qed.

Lemma publisher_frame_refl (o : op) (p : MQTT.MQTTPublisher) :
  publisher_frame o p p.
Proof. unfold publisher_frame. repeat split; try done. by left. Qed.

(** Every operation, seen from the publisher. *)
Lemma apply_op_frame (self : ScannerApp) (o : op) :
  match mqtt_publisher self with
  | Some p => ∃ p', mqtt_publisher (apply_op self o) = Some p'
                    ∧ publisher_frame o p p'
  | None => mqtt_publisher (apply_op self o) = None
  end.
Proof.
  destruct (mqtt_publisher self) as [p|] eqn:E.
  - destruct o as [now_iso device adv resp|advertisement resp|now now_iso resp
                  | | | | | | |advertisement resp|sd resp|now|now rc|rc|];
      cbn [apply_op]; rewrite ?detect_eq;
      unfold _handle_advertisement, _publish_status, shutdown, on_publisher;
      cbn [mqtt_publisher]; rewrite ?E;
      try (eexists; split; [done|apply publisher_frame_refl]).
    + destruct (_ && _); cbn [snd mqtt_publisher]; rewrite ?E;
        [eexists; split; [done|apply publisher_frame_refl]|].
      pose proof (publish_advertisement_frame
                    (OpDetection now_iso device adv resp) p
                    (BLE.make_advertisement (id (scanner (config self)))
                       now_iso device adv) resp) as Hf.
      destruct (MQTT.publish_advertisement p _ resp) as [c p'].
      destruct c as [[|]|]; cbn; eauto.
    + destruct (_ && _); cbn [snd mqtt_publisher]; rewrite ?E;
        [eexists; split; [done|apply publisher_frame_refl]|].
      pose proof (publish_advertisement_frame
                    (OpHandleAdvertisement advertisement resp) p
                    advertisement resp) as Hf.
      destruct (MQTT.publish_advertisement p _ resp) as [c p'].
      destruct c as [[|]|]; cbn; eauto.
    + pose proof (publish_status_frame (OpPublishStatus now now_iso resp) p
                    (status_data self p now now_iso) resp) as Hf.
      destruct (MQTT.publish_status p _ resp) as [c p']. cbn. eauto.
    + eexists. split; [done|]. unfold publisher_frame. cbn.
      repeat split; try done. by left.
    + eexists. split; [done|]. unfold publisher_frame. cbn.
      repeat split; try done. by left.
    + eexists. split; [done|]. apply publish_advertisement_frame.
    + eexists. split; [done|]. apply publish_status_frame.
    + eexists. split; [done|]. unfold publisher_frame, MQTT._on_connect.
      cbn [successful_connect].
      destruct (decide (rc = 0%Z)) as [->|Hne]; cbn.
      * repeat split; try done. by left.
      * rewrite bool_decide_eq_false_2 by done.
        repeat split; try done. by left.
    + eexists. split; [done|]. unfold publisher_frame. cbn.
      repeat split; try done. by left.
    + eexists. split; [done|]. unfold publisher_frame. cbn.
      repeat split; try done. by left.
  - destruct o; cbn [apply_op]; rewrite ?detect_eq;
      unfold _handle_advertisement, _publish_status, shutdown, on_publisher;
      cbn [mqtt_publisher]; rewrite ?E; try done.
    + by destruct (_ && _).
    + by destruct (_ && _).
Qed.

End PublisherMore.

Section PublisherInvariants.
Import App.

Lemma run_ops_cons (self : ScannerApp) (o : op) (ops : list op) :
  run_ops self (o :: ops) = run_ops (apply_op self o) ops.
Proof. done. Qed.

Lemma string_app_inv_head (s a b : string) : s +:+ a = s +:+ b → a = b.
Proof.
  induction s as [|c s IH]; [done|].
  intros [= H]. by apply IH.
Qed.

Lemma topics_differ (p : MQTT.MQTTPublisher) :
  MQTT.event_topic p ≠ MQTT.status_topic p.
Proof.
  unfold MQTT.event_topic, MQTT.status_topic.
  intros H%string_app_inv_head. discriminate H.
Qed.

Lemma well_routed_static (p p' : MQTT.MQTTPublisher) (m : MQTT.message) :
  MQTT.scanner_id p' = MQTT.scanner_id p →
  MQTT.topic_prefix p' = MQTT.topic_prefix p →
  MQTT.qos p' = MQTT.qos p →
  well_routed p m → well_routed p' m.
Proof.
  unfold well_routed, MQTT.event_topic, MQTT.status_topic.
  by intros -> -> ->.
Qed.

Lemma int_of_Q_inject_Z (z : Z) : MQTT.int_of_Q (inject_Z z) = z.
Proof. unfold MQTT.int_of_Q. cbn. apply Z.quot_1_r. Qed.

End PublisherInvariants.

(** X11.  A disconnect window is a loss window: from a state in which the
    publisher is not connected, and until the broker confirms a connection,
    no operation hands anything to the transport, the publisher stays
    disconnected and its connect time is not touched. *)
Theorem disconnected_publisher_sends_nothing
    (app : App.ScannerApp) (ops : list App.op) :
  Forall (λ o, App.successful_connect o = false) ops →
  App.connected app = false →
  App.client_calls (App.run_ops app ops) = App.client_calls app
  ∧ App.connected (App.run_ops app ops) = false
  ∧ App.connect_time (App.run_ops app ops) = App.connect_time app.
Proof.
  revert app. induction ops as [|o ops IH]; intros app Hops Hoff; [done|].
  apply Forall_cons in Hops as [Ho Hops]. rewrite run_ops_cons.
  pose proof (apply_op_frame app o) as Hf.
  unfold App.connected, App.client_calls, App.connect_time in *.
  destruct (App.mqtt_publisher app) as [p|] eqn:E; cbn in Hoff |- *.
  - destruct Hf as (p' & Hp' & _ & _ & _ & Hconn & Hcalls).
    destruct (Hconn Ho) as [Htime Hstay]. specialize (Hstay Hoff).
    destruct Hcalls as [Hsame|[Hon _]]; [|congruence].
    destruct (IH (App.apply_op app o) Hops) as (H1 & H2 & H3).
    { by rewrite Hp'. }
    rewrite H1, H2, H3, Hp'. cbn. by rewrite Hsame, Htime.
  - destruct (IH (App.apply_op app o) Hops) as (H1 & H2 & H3).
    { by rewrite Hf. }
    rewrite H1, H2, H3, Hf. done.
Qed.

(** X11 at work: a detection and a status tick on a publisher that was
    disconnected by the broker. *)
Lemma disconnected_publisher_sends_nothing_witness :
  let cfg :=
    {| App.scanner := {| App.id := "s1"; App.bluetooth_adapter := "hci0" |};
       App.mqtt := {| App.mqtt_topic_prefix := "bt-mqtt"; App.mqtt_qos := 1 |};
       App.deduplication := {| App.dedup_enabled := false;
                               App.dedup_interval_seconds := 30 |};
       App.blocklist := {| App.blocklist_enabled := false;
                           App.blocklist_devices := [] |};
       App.heartbeat := {| App.heartbeat_enabled := true;
                           App.heartbeat_interval_seconds := 60 |} |} in
  let app := App.run_ops (App.make_publisher (App.init cfg 0))
               [App.OpClientOnConnect 1 0; App.OpClientOnDisconnect 7] in
  let ad := BLE.make_advertisement "s1" "2024-01-01T00:00:00+00:00"
              {| BLE.address := "aa:bb:cc:dd:ee:ff" |}
              {| BLE.adv_local_name := None; BLE.adv_rssi := -60;
                 BLE.adv_manufacturer_data := ∅; BLE.adv_service_data := ∅;
                 BLE.adv_service_uuids := [] |} in
  App.client_calls
    (App.run_ops app
       [App.OpHandleAdvertisement ad (MQTT.SendRc 0);
        App.OpPublishStatus 5 "2024-01-01T00:00:05+00:00" (MQTT.SendRc 0);
        App.OpClientOnConnect 6 5])
  = App.client_calls app.
Proof.
  intros cfg app ad.
  refine (proj1 (disconnected_publisher_sends_nothing app _ _ eq_refl)).
  repeat constructor.
Defined.

(** X12.  Routing: whatever operations follow the construction of the
    publisher, every message it has handed to the transport carries the
    configured QoS and is either an event on [{prefix}/raw/{id}], not
    retained, or a status report on [{prefix}/scanner/{id}/status],
    retained; the two topics are never the same. *)
Theorem messages_are_well_routed
    (cfg : App.Config) (now : Q) (ops : list App.op) :
  let app := App.run_ops (App.make_publisher (App.init cfg now)) ops in
  ∃ p : MQTT.MQTTPublisher,
    App.mqtt_publisher app = Some p
    ∧ MQTT.qos p = App.mqtt_qos (App.mqtt cfg)
    ∧ MQTT.event_topic p
      = App.mqtt_topic_prefix (App.mqtt cfg) +:+ "/raw/"
        +:+ App.id (App.scanner cfg)
    ∧ MQTT.status_topic p
      = App.mqtt_topic_prefix (App.mqtt cfg) +:+ "/scanner/"
        +:+ App.id (App.scanner cfg) +:+ "/status"
    ∧ MQTT.event_topic p ≠ MQTT.status_topic p
    ∧ Forall (App.well_routed p) (MQTT._client_calls p).
Proof.
  intros app.
  assert (∀ ops (a : App.ScannerApp) (p : MQTT.MQTTPublisher),
            App.mqtt_publisher a = Some p →
            Forall (App.well_routed p) (MQTT._client_calls p) →
            ∃ p', App.mqtt_publisher (App.run_ops a ops) = Some p'
                  ∧ MQTT.scanner_id p' = MQTT.scanner_id p
                  ∧ MQTT.topic_prefix p' = MQTT.topic_prefix p
                  ∧ MQTT.qos p' = MQTT.qos p
                  ∧ Forall (App.well_routed p') (MQTT._client_calls p'))
    as Hinv.
  { clear. intros ops. induction ops as [|o ops IH]; intros a p Hp Hall.
    - exists p. by repeat split.
    - rewrite run_ops_cons. pose proof (apply_op_frame a o) as Hf.
      rewrite Hp in Hf. destruct Hf as (p1 & Hp1 & Hid & Hpre & Hqos & _ & Hcalls).
      destruct (IH (App.apply_op a o) p1 Hp1) as (p' & Hp' & ? & ? & ? & Hall').
      { destruct Hcalls as [->|(_ & m & -> & Hm)].
        - eapply Forall_impl; [exact Hall|].
          intros m. by apply well_routed_static.
        - apply Forall_cons. split; [by apply (well_routed_static p)|].
          eapply Forall_impl; [exact Hall|].
          intros m'. by apply well_routed_static. }
      exists p'. repeat split; try done; congruence. }
  destruct (Hinv ops (App.make_publisher (App.init cfg now))
              (MQTT.init (App.id (App.scanner cfg))
                 (App.mqtt_topic_prefix (App.mqtt cfg))
                 (App.mqtt_qos (App.mqtt cfg))) eq_refl (Forall_nil_2 _))
    as (p & Hp & Hid & Hpre & Hqos & Hall).
  exists p. unfold MQTT.event_topic, MQTT.status_topic.
  rewrite Hid, Hpre, Hqos. cbn [MQTT.init MQTT.scanner_id MQTT.topic_prefix MQTT.qos].
  split; [done|]. split; [done|]. split; [done|]. split; [done|].
  split; [|done].
  intros H%string_app_inv_head. discriminate H.
Qed.

(** [int] truncates toward zero. *)
Lemma int_of_Q_nonneg (q : Q) :
  (0 <= q)%Q →
  (inject_Z (MQTT.int_of_Q q) <= q)%Q ∧ (q < inject_Z (MQTT.int_of_Q q + 1))%Q.
Proof.
  destruct q as [n d]. unfold Qle, Qlt, MQTT.int_of_Q. cbn. intros H.
  assert (0 <= n)%Z as Hn by lia.
  rewrite Z.quot_div_nonneg by lia.
  pose proof (Z.mul_div_le n (Z.pos d) eq_refl) as Hle.
  pose proof (Z.mul_succ_div_gt n (Z.pos d) eq_refl) as Hlt.
  revert Hle Hlt. generalize (n / Z.pos d)%Z. intros z Hle Hlt.
  rewrite !Z.mul_1_r. rewrite (Z.mul_comm z), (Z.mul_comm (z + 1)).
  unfold Z.succ in Hlt. split; assumption.
Qed.

Lemma int_of_Q_nonpos (q : Q) :
  (q <= 0)%Q →
  (inject_Z (MQTT.int_of_Q q - 1) < q)%Q ∧ (q <= inject_Z (MQTT.int_of_Q q))%Q.
Proof.
  destruct q as [n d]. unfold Qle, Qlt, MQTT.int_of_Q. cbn. intros H.
  assert (0 <= - n)%Z as Hn by lia.
  replace (Z.quot n (Z.pos d)) with (- (- n / Z.pos d))%Z.
  2:{ rewrite <- Z.quot_div_nonneg by lia. rewrite Z.quot_opp_l by lia. lia. }
  pose proof (Z.mul_div_le (- n) (Z.pos d) eq_refl) as Hle.
  pose proof (Z.mul_succ_div_gt (- n) (Z.pos d) eq_refl) as Hlt.
  revert Hle Hlt. generalize (- n / Z.pos d)%Z. intros z Hle Hlt.
  rewrite !Z.mul_1_r. unfold Z.succ in Hlt.
  replace ((- z - 1) * Z.pos d)%Z with (- (Z.pos d * (z + 1)))%Z by ring.
  replace (- z * Z.pos d)%Z with (- (Z.pos d * z))%Z by ring.
  lia.
Qed.

(** X13.  The uptime reported by [get_statistics] counts from the last
    confirmed connection: a disconnect, a refused connection or any publish
    leaves it running.  After a connection confirmed at [t0] and any
    operations that confirm no other, the statistics at time [now] report
    [int(now - t0)] seconds, where [now - t0] is the float difference the
    code computes ([0] if [t0] is [0.0], the value Python treats as unset),
    and [int] truncates toward zero: [int q <= q < int q + 1] for [q >= 0]
    and [int q - 1 < q <= int q] for [q <= 0]. *)
Theorem uptime_counts_from_last_connect
    (app : App.ScannerApp) (p : MQTT.MQTTPublisher) (t0 now : Q)
    (ops : list App.op) :
  App.mqtt_publisher app = Some p →
  Forall (λ o, App.successful_connect o = false) ops →
  ∃ p' : MQTT.MQTTPublisher,
    App.mqtt_publisher
      (App.run_ops (App.apply_op app (App.OpClientOnConnect t0 0)) ops)
    = Some p'
    ∧ MQTT._connect_time p' = Some t0
    ∧ MQTT.stat_uptime_seconds (MQTT.get_statistics p' now)
      = (if Qeq_bool t0 0 then 0%Z
         else MQTT.int_of_Q (Float64.sub now t0))
    ∧ (∀ q : Q, (0 <= q)%Q →
         (inject_Z (MQTT.int_of_Q q) <= q)%Q
         ∧ (q < inject_Z (MQTT.int_of_Q q + 1))%Q)
    ∧ (∀ q : Q, (q <= 0)%Q →
         (inject_Z (MQTT.int_of_Q q - 1) < q)%Q
         ∧ (q <= inject_Z (MQTT.int_of_Q q))%Q).
Proof.
  intros Hp Hops.
  assert (∀ ops (a : App.ScannerApp) (q : MQTT.MQTTPublisher),
            Forall (λ o, App.successful_connect o = false) ops →
            App.mqtt_publisher a = Some q →
            ∃ q', App.mqtt_publisher (App.run_ops a ops) = Some q'
                  ∧ MQTT._connect_time q' = MQTT._connect_time q) as Hinv.
  { clear. intros ops. induction ops as [|o ops IH]; intros a q Hops Hq.
    - by exists q.
    - apply Forall_cons in Hops as [Ho Hops]. rewrite run_ops_cons.
      pose proof (apply_op_frame a o) as Hf. rewrite Hq in Hf.
      destruct Hf as (q1 & Hq1 & _ & _ & _ & Hconn & _).
      destruct (Hconn Ho) as [Ht _].
      destruct (IH _ q1 Hops Hq1) as (q' & Hq' & Ht').
      exists q'. split; [done|congruence]. }
  destruct (Hinv ops (App.apply_op app (App.OpClientOnConnect t0 0))
              (MQTT._on_connect p t0 0).1 Hops) as (p' & Hp' & Ht).
  { cbn [App.apply_op]. unfold App.on_publisher. by rewrite Hp. }
  exists p'. split; [done|].
  assert (MQTT._connect_time p' = Some t0) as Ht0 by (by rewrite Ht).
  split; [done|].
  split; [|split; [apply int_of_Q_nonneg|apply int_of_Q_nonpos]].
  unfold MQTT.get_statistics. rewrite Ht0. cbn [MQTT.stat_uptime_seconds].
  by destruct (Qeq_bool t0 0).
Qed.

(** X13 at work: connected at 100.25, then dropped by the broker; at 160.75
    the statistics say 60 seconds.  Connected at 2^-55 and read at 1.0 they
    say 1 second: the float difference is 1.0 although the readings are a
    little less than 1 apart. *)
Lemma uptime_counts_from_last_connect_witness :
  let app :=
    App.make_publisher
      (App.init
         {| App.scanner := {| App.id := "s1"; App.bluetooth_adapter := "hci0" |};
            App.mqtt := {| App.mqtt_topic_prefix := "bt-mqtt"; App.mqtt_qos := 1 |};
            App.deduplication := {| App.dedup_enabled := false;
                                    App.dedup_interval_seconds := 30 |};
            App.blocklist := {| App.blocklist_enabled := false;
                                App.blocklist_devices := [] |};
            App.heartbeat := {| App.heartbeat_enabled := true;
                                App.heartbeat_interval_seconds := 60 |} |} 0) in
  (∃ p' : MQTT.MQTTPublisher,
     App.mqtt_publisher
       (App.run_ops (App.apply_op app (App.OpClientOnConnect (401 # 4) 0))
          [App.OpClientOnDisconnect 7])
     = Some p'
     ∧ MQTT.stat_uptime_seconds (MQTT.get_statistics p' (643 # 4)) = 60%Z)
  ∧ (∃ p' : MQTT.MQTTPublisher,
       App.mqtt_publisher
         (App.run_ops
            (App.apply_op app
               (App.OpClientOnConnect (1 # 36028797018963968) 0)) [])
       = Some p'
       ∧ MQTT.stat_uptime_seconds (MQTT.get_statistics p' 1) = 1%Z
       ∧ (1 - (1 # 36028797018963968) < 1)%Q).
Proof.
  intros app. split.
  - destruct (uptime_counts_from_last_connect app (MQTT.init "s1" "bt-mqtt" 1)
                (401 # 4) (643 # 4) [App.OpClientOnDisconnect 7] eq_refl)
      as (p' & Hp' & _ & Hup & _).
    + repeat constructor.
    + exists p'. split; [exact Hp'|]. rewrite Hup. reflexivity.
  - destruct (uptime_counts_from_last_connect app (MQTT.init "s1" "bt-mqtt" 1)
                (1 # 36028797018963968) 1 [] eq_refl)
      as (p' & Hp' & _ & Hup & _).
    + constructor.
    + exists p'. split; [exact Hp'|]. rewrite Hup.
      split; [vm_compute|]; reflexivity.
Defined.

Section OrchestratorMore.
Import App.

Lemma publish_advertisement_account (p : MQTT.MQTTPublisher)
    (ad : BLE.Advertisement) (resp : MQTT.send_response) :
  ((MQTT.publish_advertisement p ad resp).1 = MQTT.Return true
   ∧ MQTT._messages_failed (MQTT.publish_advertisement p ad resp).2
     = MQTT._messages_failed p)
  ∨ ((MQTT.publish_advertisement p ad resp).1 = MQTT.Return false
     ∧ MQTT._messages_failed (MQTT.publish_advertisement p ad resp).2
       = MQTT._messages_failed p + 1).
Proof.
  destruct (MQTT._connected p) eqn:E.
  - rewrite publish_advertisement_connected by done. cbn zeta.
    destruct resp as [rc|msg]; [destruct (decide _)|]; cbn; auto.
  - rewrite publish_advertisement_disconnected by done. cbn. auto.
Qed.

Lemma handle_advertisement_account (self : ScannerApp)
    (ad : BLE.Advertisement) (resp : MQTT.send_response) :
  _messages_published (_handle_advertisement self ad resp).2
  + messages_failed (_handle_advertisement self ad resp).2
  = _messages_published self + messages_failed self
    + length (publish_advertisement_calls (_handle_advertisement self ad resp).1)
  ∧ _devices_seen (_handle_advertisement self ad resp).2
    = {[BLE.device_address ad]} ∪ _devices_seen self.
Proof.
  unfold _handle_advertisement, messages_failed.
  destruct (_ && _); [cbn; split; [lia|done]|].
  cbn [mqtt_publisher].
  destruct (mqtt_publisher self) as [p|] eqn:E; [|cbn; rewrite ?E; cbn; split; [lia|done]].
  destruct (publish_advertisement_account p ad resp) as [[Hb Hf]|[Hb Hf]];
    destruct (MQTT.publish_advertisement p ad resp) as [c p'];
    cbn [fst snd] in *; subst c; cbn; (split; [lia|done]).
Qed.

Lemma detect_all_cons (self : ScannerApp) (now_iso : string)
    (device : BLE.BLEDevice) (adv : BLE.AdvertisementData)
    (resp : MQTT.send_response)
    (rest : list (string * BLE.BLEDevice * BLE.AdvertisementData
                  * MQTT.send_response)) :
  detect_all self ((now_iso, device, adv, resp) :: rest)
  = ((detect self now_iso device adv resp).1
       ++ (detect_all (detect self now_iso device adv resp).2 rest).1,
     (detect_all (detect self now_iso device adv resp).2 rest).2).
Proof.
  cbn [detect_all]. destruct (detect self now_iso device adv resp) as [c s1].
  cbn [fst snd]. by destruct (detect_all s1 rest).
Qed.

Lemma publish_status_unfold (self : ScannerApp) (now : Q) (now_iso : string)
    (resp : MQTT.send_response) :
  (publish_advertisement_calls (_publish_status self now now_iso resp).1 = []
   ∧ length (publish_status_calls (_publish_status self now now_iso resp).1)
     = match mqtt_publisher self with Some _ => 1 | None => 0 end)
  ∧ _messages_published (_publish_status self now now_iso resp).2
    = _messages_published self
  ∧ _devices_seen (_publish_status self now now_iso resp).2 = _devices_seen self
  ∧ messages_failed (_publish_status self now now_iso resp).2
    = messages_failed self
  ∧ messages_sent (_publish_status self now now_iso resp).2 = messages_sent self
  ∧ (is_Some (mqtt_publisher (_publish_status self now now_iso resp).2)
     ↔ is_Some (mqtt_publisher self)).
Proof.
  unfold _publish_status, messages_failed, messages_sent.
  destruct (mqtt_publisher self) as [p|] eqn:E; [|rewrite ?E; cbn; by rewrite ?E].
  pose proof (publish_status_state p (status_data self p now now_iso) resp)
    as (Hf & Hs & _).
  destruct (MQTT.publish_status p _ resp) as [c p']. cbn in *.
  repeat split; eauto.
Qed.

Lemma heartbeat_run_cons (s : hb_pc * ScannerApp) (i : hb_input)
    (ins : list hb_input) :
  heartbeat_run s (i :: ins)
  = ((heartbeat_step s i).1 ++ (heartbeat_run (heartbeat_step s i).2 ins).1,
     (heartbeat_run (heartbeat_step s i).2 ins).2).
Proof.
  cbn [heartbeat_run]. destruct (heartbeat_step s i) as [c s1].
  cbn [fst snd]. by destruct (heartbeat_run s1 ins).
Qed.

Lemma heartbeat_step_sleeping (self : ScannerApp) (i : hb_input) :
  heartbeat_step (HbSleeping, self) i
  = match hb_result i with
    | BLE.Returned =>
        ((_publish_status self (hb_now i) (hb_now_iso i) (hb_resp i)).1,
         (HbSleeping,
          (_publish_status self (hb_now i) (hb_now_iso i) (hb_resp i)).2))
    | BLE.Raised _ => ([], (HbSleeping, self))
    | BLE.Cancelled => ([], (HbExited, self))
    end.
Proof.
  unfold heartbeat_step. cbn [fst snd].
  destruct (hb_result i); [|done|done].
  by destruct (_publish_status self _ _ _).
Qed.

Lemma heartbeat_run_exited (self : ScannerApp) (ins : list hb_input) :
  heartbeat_run (HbExited, self) ins = ([], (HbExited, self)).
Proof.
  induction ins as [|i ins IH]; [done|].
  rewrite heartbeat_run_cons.
  change (heartbeat_step (HbExited, self) i) with ([] : list call, (HbExited, self)).
  cbn [fst snd]. by rewrite IH.
Qed.

End OrchestratorMore.

(** X14.  Every detection handed to the publisher is counted exactly once:
    over any run of detections, the orchestrator's published count plus the
    publisher's failure count grow together by the number of
    [publish_advertisement] calls made. *)
Theorem forwarded_detections_are_accounted
    (app : App.ScannerApp)
    (ds : list (string * BLE.BLEDevice * BLE.AdvertisementData
                * MQTT.send_response)) :
  App._messages_published (App.detect_all app ds).2
  + App.messages_failed (App.detect_all app ds).2
  = App._messages_published app + App.messages_failed app
    + length (App.publish_advertisement_calls (App.detect_all app ds).1).
Proof.
  revert app. induction ds as [|[[[now_iso device] adv] resp] ds IH]; intros app.
  - cbn. lia.
  - rewrite detect_all_cons. cbn [fst snd]. rewrite IH, detect_eq.
    destruct (handle_advertisement_account app
                (BLE.make_advertisement
                   (App.id (App.scanner (App.config app))) now_iso device adv)
                resp) as [Hacc _].
    unfold App.publish_advertisement_calls in *.
    rewrite bind_app, length_app. lia.
Qed.

(** X15.  The set of devices seen does not depend on the filter or on the
    publisher: after any run of detections it is the earlier set together
    with the upper-cased addresses detected, blocked and unpublished ones
    included. *)
Theorem devices_seen_records_every_detection
    (app : App.ScannerApp)
    (ds : list (string * BLE.BLEDevice * BLE.AdvertisementData
                * MQTT.send_response)) :
  App._devices_seen (App.detect_all app ds).2
  = list_to_set (App.detected_addresses ds) ∪ App._devices_seen app.
Proof.
  revert app. induction ds as [|[[[now_iso device] adv] resp] ds IH]; intros app.
  - cbn. by rewrite (left_id_L ∅ (∪)).
  - rewrite detect_all_cons. cbn [fst snd]. rewrite IH, detect_eq.
    destruct (handle_advertisement_account app
                (BLE.make_advertisement
                   (App.id (App.scanner (App.config app))) now_iso device adv)
                resp) as [_ ->].
    unfold App.detected_addresses. rewrite fmap_cons. cbn [list_to_set fst snd].
    cbn [BLE.make_advertisement BLE.device_address].
    rewrite !(assoc_L (∪)). f_equal. apply (comm_L (∪)).
Qed.

(** X16.  After [shutdown] the publisher is disconnected and the counters
    are what they were; a detection that still arrives and is not blocked
    is handed to the publisher, which counts one failure and passes nothing
    to the transport. *)
Theorem shutdown_then_detection_is_dropped
    (app : App.ScannerApp) (p : MQTT.MQTTPublisher)
    (ad : BLE.Advertisement) (resp : MQTT.send_response) :
  App.mqtt_publisher app = Some p →
  App.blocklist_enabled (App.blocklist (App.config app))
    && bool_decide (BLE.device_address ad
                      ∈ App.blocklist_devices (App.blocklist (App.config app)))
  = false →
  let down := App.shutdown app in
  let after := (App._handle_advertisement down ad resp).2 in
  (App.connected down = false
   ∧ App.messages_failed down = App.messages_failed app
   ∧ App.messages_sent down = App.messages_sent app
   ∧ App._messages_published down = App._messages_published app
   ∧ App._devices_seen down = App._devices_seen app
   ∧ App.client_calls down = App.client_calls app)
  ∧ (App._handle_advertisement down ad resp).1
    = [App.CallPublishAdvertisement ad]
  ∧ App.messages_failed after = App.messages_failed app + 1
  ∧ App._messages_published after = App._messages_published app
  ∧ App.client_calls after = App.client_calls app.
Proof.
  intros Hp Hnb down after.
  unfold after, down, App.shutdown, App.connected, App.messages_failed,
    App.messages_sent, App.client_calls.
  rewrite Hp. cbn [App.set_publisher App.mqtt_publisher from_option
                    App._messages_published App._devices_seen].
  split; [done|].
  unfold App._handle_advertisement.
  cbn [App.set_publisher App.config App.mqtt_publisher].
  rewrite Hnb. cbn [App.mqtt_publisher].
  rewrite publish_advertisement_disconnected by done.
  done.
Qed.

(** X16 at work: a connected publisher, shut down, then one more
    detection. *)
Lemma shutdown_then_detection_is_dropped_witness :
  let app :=
    App.apply_op
      (App.make_publisher
         (App.init
            {| App.scanner := {| App.id := "s1"; App.bluetooth_adapter := "hci0" |};
               App.mqtt := {| App.mqtt_topic_prefix := "bt-mqtt"; App.mqtt_qos := 1 |};
               App.deduplication := {| App.dedup_enabled := false;
                                       App.dedup_interval_seconds := 30 |};
               App.blocklist := {| App.blocklist_enabled := false;
                                   App.blocklist_devices := [] |};
               App.heartbeat := {| App.heartbeat_enabled := true;
                                   App.heartbeat_interval_seconds := 60 |} |} 0))
      (App.OpClientOnConnect 1 0) in
  let ad := BLE.make_advertisement "s1" "2024-01-01T00:00:00+00:00"
              {| BLE.address := "aa:bb:cc:dd:ee:ff" |}
              {| BLE.adv_local_name := None; BLE.adv_rssi := -60;
                 BLE.adv_manufacturer_data := ∅; BLE.adv_service_data := ∅;
                 BLE.adv_service_uuids := [] |} in
  App.messages_failed
    (App._handle_advertisement (App.shutdown app) ad (MQTT.SendRc 0)).2 = 1.
Proof.
  intros app ad.
  destruct (shutdown_then_detection_is_dropped app
              (MQTT._on_connect (MQTT.init "s1" "bt-mqtt" 1) 1 0).1 ad
              (MQTT.SendRc 0) eq_refl eq_refl) as (_ & _ & Hf & _).
  exact Hf.
Defined.

(** X17.  The heartbeat task: it publishes one status report for every
    sleep that completes before the first cancellation (none if there is no
    publisher) and nothing after it; an exception met while sleeping does
    not end it, only a cancellation does; and no heartbeat, whatever its
    outcome, changes a counter or the set of devices seen. *)
Theorem heartbeat_loop_behaviour
    (app : App.ScannerApp) (ins : list App.hb_input) :
  let r := App.heartbeat_run (App.HbSleeping, app) ins in
  length (App.publish_status_calls r.1)
  = match App.mqtt_publisher app with
    | Some _ => App.completed_sleeps (App.before_cancel ins)
    | None => 0
    end
  ∧ App.publish_advertisement_calls r.1 = []
  ∧ (r.2.1 = App.HbExited ↔ Exists (λ i, App.is_cancel i = true) ins)
  ∧ App.messages_failed r.2.2 = App.messages_failed app
  ∧ App.messages_sent r.2.2 = App.messages_sent app
  ∧ App._messages_published r.2.2 = App._messages_published app
  ∧ App._devices_seen r.2.2 = App._devices_seen app.
Proof.
  cbn zeta. revert app. induction ins as [|i ins IH]; intros app.
  - cbn. rewrite Exists_nil.
    split; [by destruct (App.mqtt_publisher app)|].
    split; [done|]. split; [|done]. split; [done|intros []].
  - rewrite heartbeat_run_cons, heartbeat_step_sleeping, Exists_cons.
    cbn [App.before_cancel]. unfold App.is_cancel at 1 2.
    destruct (App.hb_result i) as [|e|] eqn:Hres; cbn [fst snd].
    + pose proof (publish_status_unfold app (App.hb_now i) (App.hb_now_iso i)
                    (App.hb_resp i))
        as ((Hadv & Hlen) & Hpub & Hseen & Hfail & Hsent & Hsome).
      destruct (IH (App._publish_status app (App.hb_now i) (App.hb_now_iso i)
                      (App.hb_resp i)).2) as (H1 & H2 & H3 & H4 & H5 & H6 & H7).
      cbn [App.completed_sleeps]. unfold App.is_completed_sleep. rewrite Hres.
      unfold App.publish_status_calls, App.publish_advertisement_calls in *.
      rewrite !bind_app, length_app, Hadv, H1, H2, Hlen.
      split; [|split; [done|split; [|repeat split; congruence]]].
      * destruct (App.mqtt_publisher app) as [p|];
          destruct (App.mqtt_publisher (App._publish_status app _ _ _).2)
            as [p1|]; try done.
        -- by destruct Hsome as [_ [? ?]].
        -- by destruct Hsome as [[? ?] _].
      * rewrite H3. split; [by right|]. by intros [?|?].
    + destruct (IH app) as (H1 & H2 & H3 & H4 & H5 & H6 & H7).
      cbn [App.completed_sleeps]. unfold App.is_completed_sleep. rewrite Hres.
      split; [done|split; [done|split; [|done]]].
      rewrite H3. split; [by right|]. by intros [?|?].
    + rewrite heartbeat_run_exited. cbn.
      split; [by destruct (App.mqtt_publisher app)|].
      repeat split; try done. by left.
Qed.

(* ===================================================================== *)
(** * Properties of the environment substitution                          *)
(* ===================================================================== *)

Section CfgFacts.
Import Cfg.

Lemma yaml_nested_ind (P : yaml → Prop) :
  (∀ v, P (YScalar v)) →
  (∀ s, P (YStr s)) →
  (∀ l, Forall P l → P (YList l)) →
  (∀ fields, Forall (λ kv, P kv.2) fields → P (YDict fields)) →
  ∀ data, P data.
Proof.
  intros Hv Hs Hl Hd.
  fix IH 1. intros [v|s|l|fields].
  - apply Hv.
  - apply Hs.
  - apply Hl. induction l as [|x l IHl]; constructor; [apply IH|apply IHl].
  - apply Hd. induction fields as [|[k x] fields IHf]; constructor;
      [apply IH|apply IHf].
Qed.

Lemma substitute_str_unset (env : gmap string string) (s : string) :
  env !! slice_2_m1 s = None → substitute_str env s = s.
Proof.
  intros H. unfold substitute_str. rewrite H. by destruct (_ && _).
Qed.

Lemma endswith_app (suffix s : string) : endswith suffix (s +:+ suffix) = true.
Proof.
  induction s as [|c s IH].
  - change (endswith suffix suffix = true).
    destruct suffix as [|c t]; cbn [endswith]; by rewrite String.eqb_refl.
  - change (String c s +:+ suffix) with (String c (s +:+ suffix)).
    cbn [endswith]. rewrite IH. apply orb_true_r.
Qed.

Lemma string_length_app (s t : string) :
  String.length (s +:+ t) = String.length s + String.length t.
Proof.
  induction s as [|c s IH]; [done|].
  change (String c s +:+ t) with (String c (s +:+ t)).
  cbn [String.length]. by rewrite IH.
Qed.

Lemma substring_0_app (s t : string) :
  String.substring 0 (String.length s) (s +:+ t) = s.
Proof.
  induction s as [|c s IH]; [by destruct t|].
  change (String c s +:+ t) with (String c (s +:+ t)).
  cbn [String.length String.substring]. by rewrite IH.
Qed.

Lemma slice_placeholder (v : string) : slice_2_m1 ("${" +:+ v +:+ "}") = v.
Proof.
  unfold slice_2_m1.
  change ("${" +:+ v +:+ "}") with (String "$" (String "{" (v +:+ "}"))).
  cbn [String.length String.substring]. rewrite string_length_app. cbn [String.length].
  replace (S (S (String.length v + 1)) - 3) with (String.length v) by lia.
  apply substring_0_app.
Qed.

Lemma placeholder_recognised (v : string) :
  startswith "${" ("${" +:+ v +:+ "}") && endswith "}" ("${" +:+ v +:+ "}")
  = true.
Proof.
  apply andb_true_intro. split.
  - change ("${" +:+ v +:+ "}") with (String "$" (String "{" (v +:+ "}"))).
    unfold startswith. by destruct (v +:+ "}").
  - change ("${" +:+ v +:+ "}") with (("${" +:+ v) +:+ "}").
    apply endswith_app.
Qed.

Lemma substitute_dict_keys (env : gmap string string)
    (fields : list (string * yaml)) :
  ∃ fields', _substitute_env_vars env (YDict fields) = YDict fields'
             ∧ fields'.*1 = fields.*1
             ∧ fields'.*2 = _substitute_env_vars env <$> fields.*2.
Proof.
  cbn [_substitute_env_vars]. eexists. split; [reflexivity|].
  induction fields as [|[k x] fields [IH1 IH2]]; [done|].
  cbn. by rewrite IH1, IH2.
Qed.

Lemma substitute_list_items (env : gmap string string) (l : list yaml) :
  _substitute_env_vars env (YList l)
  = YList (_substitute_env_vars env <$> l).
Proof.
  cbn [_substitute_env_vars]. f_equal.
Qed.

Lemma substitute_empty_env (data : yaml) : _substitute_env_vars ∅ data = data.
Proof.
  induction data as [v|s|l IH|fields IH] using yaml_nested_ind.
  - done.
  - cbn. f_equal. apply substitute_str_unset, lookup_empty.
  - rewrite substitute_list_items. f_equal.
    induction IH as [|x l Hx _ IHl]; [done|]. cbn. by rewrite Hx, IHl.
  - destruct (substitute_dict_keys ∅ fields) as (fields' & -> & Hk & Hv).
    f_equal.
    assert (fields'.*2 = fields.*2) as Hv'.
    { rewrite Hv. clear Hk Hv. induction IH as [|[k x] l Hx _ IHl]; [done|].
      cbn in *. by rewrite Hx, IHl. }
    clear Hv IH. revert fields Hk Hv'.
    induction fields' as [|[k' x'] fields' IHf]; intros [|[k x] fields] Hk Hv;
      try done.
    cbn in *. injection Hk as -> Hk. injection Hv as -> Hv.
    f_equal. by apply IHf.
Qed.

End CfgFacts.

(** X18.  [_substitute_env_vars]: with no environment variable set the
    data comes back unchanged; a string that is exactly one placeholder is
    replaced by the variable's value, taken as it is (a value that is itself
    a placeholder is not expanded), and kept when the variable is not set;
    any other string, and every scalar, is kept; mapping keys are never
    substituted and lists keep their length and order. *)
Theorem substitute_env_vars_behaviour (env : gmap string string) :
  (∀ data : Cfg.yaml, Cfg._substitute_env_vars ∅ data = data)
  ∧ (∀ v value : string,
       env !! v = Some value →
       Cfg._substitute_env_vars env (Cfg.YStr ("${" +:+ v +:+ "}"))
       = Cfg.YStr value)
  ∧ (∀ v : string,
       env !! v = None →
       Cfg._substitute_env_vars env (Cfg.YStr ("${" +:+ v +:+ "}"))
       = Cfg.YStr ("${" +:+ v +:+ "}"))
  ∧ (∀ s : string,
       Cfg.startswith "${" s && Cfg.endswith "}" s = false →
       Cfg._substitute_env_vars env (Cfg.YStr s) = Cfg.YStr s)
  ∧ (∀ v : Cfg.scalar,
       Cfg._substitute_env_vars env (Cfg.YScalar v) = Cfg.YScalar v)
  ∧ (∀ fields : list (string * Cfg.yaml),
       ∃ fields' : list (string * Cfg.yaml),
         Cfg._substitute_env_vars env (Cfg.YDict fields) = Cfg.YDict fields'
         ∧ fields'.*1 = fields.*1
         ∧ fields'.*2 = Cfg._substitute_env_vars env <$> fields.*2)
  ∧ (∀ l : list Cfg.yaml,
       Cfg._substitute_env_vars env (Cfg.YList l)
       = Cfg.YList (Cfg._substitute_env_vars env <$> l)).
Proof.
  split; [apply substitute_empty_env|].
  split; [|split; [|split; [|split; [done|split]]]].
  - intros v value Hv. cbn [Cfg._substitute_env_vars]. f_equal.
    unfold Cfg.substitute_str.
    by rewrite placeholder_recognised, slice_placeholder, Hv.
  - intros v Hv. cbn [Cfg._substitute_env_vars]. f_equal.
    apply substitute_str_unset. by rewrite slice_placeholder.
  - intros s Hs. cbn [Cfg._substitute_env_vars]. f_equal.
    unfold Cfg.substitute_str. by rewrite Hs.
  - apply substitute_dict_keys.
  - apply substitute_list_items.
Qed.

(** X18 at work: a broker password taken from the environment, next to a
    string that only contains a placeholder. *)
Lemma substitute_env_vars_behaviour_witness :
  let env : gmap string string := {[ "MQTT_PASSWORD" := "${HOME}" ]} in
  Cfg._substitute_env_vars env (Cfg.YStr ("${" +:+ "MQTT_PASSWORD" +:+ "}"))
  = Cfg.YStr "${HOME}"
  ∧ Cfg._substitute_env_vars env (Cfg.YStr "user-${MQTT_PASSWORD}")
    = Cfg.YStr "user-${MQTT_PASSWORD}".
Proof.
  intros env.
  destruct (substitute_env_vars_behaviour env) as (_ & Hset & _ & Hother & _).
  split.
  - apply Hset. reflexivity.
  - apply Hother. reflexivity.
Defined.

Section PipelineMore.
Import App.

Lemma handle_advertisement_calls (self : ScannerApp)
    (ad : BLE.Advertisement) (resp : MQTT.send_response) :
  is_Some (mqtt_publisher self) →
  publish_advertisement_calls (_handle_advertisement self ad resp).1
  = (if blocked (config self) ad then [] else [ad])
  ∧ is_Some (mqtt_publisher (_handle_advertisement self ad resp).2)
  ∧ config (_handle_advertisement self ad resp).2 = config self.
Proof.
  intros [p Hp]. unfold _handle_advertisement, blocked.
  destruct (_ && _); [cbn; rewrite Hp; eauto|].
  cbn [mqtt_publisher]. rewrite Hp.
  destruct (MQTT.publish_advertisement p ad resp) as [c p'].
  destruct c as [[|]|]; cbn; eauto.
Qed.

End PipelineMore.

(** X19.  What the pipeline forwards: with a publisher in place, the
    advertisements handed to [publish_advertisement] over any run of
    detections are the normalised detections that the blocklist gate lets
    through, each once and in the order of arrival, whatever the transport
    answers and whatever the deduplication settings. *)
Theorem pipeline_forwards_unblocked_in_order
    (app : App.ScannerApp)
    (ds : list (string * BLE.BLEDevice * BLE.AdvertisementData
                * MQTT.send_response)) :
  is_Some (App.mqtt_publisher app) →
  App.publish_advertisement_calls (App.detect_all app ds).1
  = filter (λ ad, App.blocked (App.config app) ad = false)
           (App.normalised app ds).
Proof.
  revert app. induction ds as [|[[[now_iso device] adv] resp] ds IH];
    intros app Hp; [done|].
  rewrite detect_all_cons, detect_eq. cbn [fst snd].
  destruct (handle_advertisement_calls app
              (BLE.make_advertisement (App.id (App.scanner (App.config app)))
                 now_iso device adv) resp Hp) as (Hcalls & Hp' & Hcfg).
  unfold App.publish_advertisement_calls in *. rewrite bind_app, Hcalls.
  rewrite (IH _ Hp'). unfold App.normalised. rewrite Hcfg, fmap_cons.
  cbn [fst snd]. rewrite filter_cons.
  destruct (App.blocked (App.config app) _) eqn:Hb.
  - rewrite decide_False by done. done.
  - rewrite decide_True by done. done.
Qed.

(** X19 at work: three detections, the second from a blocked device. *)
Lemma pipeline_forwards_unblocked_in_order_witness :
  let cfg :=
    {| App.scanner := {| App.id := "s1"; App.bluetooth_adapter := "hci0" |};
       App.mqtt := {| App.mqtt_topic_prefix := "bt-mqtt"; App.mqtt_qos := 1 |};
       App.deduplication := {| App.dedup_enabled := true;
                               App.dedup_interval_seconds := 30 |};
       App.blocklist := {| App.blocklist_enabled := true;
                           App.blocklist_devices := ["11:22:33:44:55:66"] |};
       App.heartbeat := {| App.heartbeat_enabled := true;
                           App.heartbeat_interval_seconds := 60 |} |} in
  let app := App.make_publisher (App.init cfg 0) in
  let sighting (address : string) (resp : MQTT.send_response) :=
    ("2024-01-01T00:00:00+00:00", {| BLE.address := address |},
     {| BLE.adv_local_name := None; BLE.adv_rssi := -60;
        BLE.adv_manufacturer_data := ∅; BLE.adv_service_data := ∅;
        BLE.adv_service_uuids := [] |}, resp) in
  BLE.device_address <$>
    App.publish_advertisement_calls
      (App.detect_all app
         [sighting "aa:bb:cc:dd:ee:ff" (MQTT.SendRc 0);
          sighting "11:22:33:44:55:66" (MQTT.SendRc 0);
          sighting "AA:BB:CC:DD:EE:FF" (MQTT.SendRaises "socket closed")]).1
  = ["AA:BB:CC:DD:EE:FF"; "AA:BB:CC:DD:EE:FF"].
Proof.
  intros cfg app sighting.
  rewrite (pipeline_forwards_unblocked_in_order app _ (mk_is_Some _ _ eq_refl)).
  vm_compute. reflexivity.
Defined.

(** X5.  The normaliser's payloads are text-safe: every value stored in the
    advertisement's [manufacturer_data] and [service_data] is base64 text,
    made only of the 64 alphabet characters and the padding sign, and its
    length is a multiple of four. *)
Theorem normaliser_payloads_are_text_safe
    (scanner_id now_iso : string) (device : BLE.BLEDevice)
    (adv : BLE.AdvertisementData) (key text : string) :
  let ad := BLE.make_advertisement scanner_id now_iso device adv in
  BLE.manufacturer_data ad !! key = Some text
  ∨ BLE.service_data ad !! key = Some text →
  BLE.string_forallb BLE.is_b64_text_char text = true
  ∧ String.length text `mod` 4 = 0.
Proof.
  intros ad Hin.
  assert (∃ bs : list Byte.byte, text = BLE.b64encode bs) as [bs ->].
  { cbn [ad BLE.make_advertisement BLE.manufacturer_data BLE.service_data] in Hin.
    destruct Hin as [Hm|Hs].
    - apply elem_of_list_to_map_2 in Hm.
      apply list_elem_of_fmap in Hm as [[k v] [[= _ ->] _]]. eauto.
    - rewrite lookup_fmap in Hs.
      destruct (BLE.adv_service_data adv !! key) as [v|]; [|done].
      injection Hs as <-. eauto. }
  split.
  - apply (b64encode_text_lt (S (length bs))). lia.
  - rewrite (b64encode_length_lt (S (length bs))) by lia.
    rewrite Nat.mul_comm. apply Nat.Div0.mod_mul.
Qed.

(** X5 at work: one service payload of two bytes. *)
Lemma normaliser_payloads_are_text_safe_witness :
  let adv :=
    {| BLE.adv_local_name := None; BLE.adv_rssi := -60;
       BLE.adv_manufacturer_data := ∅;
       BLE.adv_service_data := {[ "180f" := [Byte.x4d; Byte.x61] ]};
       BLE.adv_service_uuids := ["180f"] |} in
  BLE.string_forallb BLE.is_b64_text_char "TWE=" = true
  ∧ String.length "TWE=" `mod` 4 = 0.
Proof.
  intros adv.
  apply (normaliser_payloads_are_text_safe "s1" "2024-01-01T00:00:00+00:00"
           {| BLE.address := "aa:bb:cc:dd:ee:ff" |} adv "180f" "TWE=").
  right. vm_compute. reflexivity.
Defined.

(** X6 at work: one vendor entry, company identifier 76. *)
Lemma normaliser_keeps_entries_witness :
  let adv :=
    {| BLE.adv_local_name := None; BLE.adv_rssi := -60;
       BLE.adv_manufacturer_data := {[ 76%N := [Byte.x4d; Byte.x61] ]};
       BLE.adv_service_data := ∅;
       BLE.adv_service_uuids := [] |} in
  BLE.manufacturer_data
    (BLE.make_advertisement "s1" "2024-01-01T00:00:00+00:00"
       {| BLE.address := "aa:bb:cc:dd:ee:ff" |} adv) !! "0x004c"
  = Some "TWE=".
Proof.
  intros adv.
  exact (proj1 (normaliser_keeps_entries "s1" "2024-01-01T00:00:00+00:00"
                  {| BLE.address := "aa:bb:cc:dd:ee:ff" |} adv) 76%N).
Defined.
